(** * Cosma: bounded agent history, sequential chains and XML extraction

    A shallow embedding of the [cosma] Python package:
    - [cosma.core]  : the [Agent] dataclass, [Agent._prune_history] and
                      [Agent.run_with_tools];
    - [cosma.chain] : the [Chain] dataclass, [Chain.validate],
                      [Chain.__call__] and [extract_xml];
    - [cosma.core]  : [Agent._format_history];
    - [cosma.logging] : the set-up of [AgentLogger].

    The chat-completion client ([cosette.Chat], its [toolloop], [contents]
    and the [models] registry) is not part of the package: it is taken as
    a section variable, so every theorem holds for every client. *)

From Stdlib Require Import ZArith String Ascii Lia.
From stdpp Require Import base option list strings gmap.

Local Open Scope string_scope.
Local Open Scope list_scope.
Local Open Scope Z_scope.

(** ** Python values shared by both modules *)

(** A raised exception: its class name and its message. *)
Record Exn := mkExn { exn_class : string; exn_msg : string }.

Definition ValueError (msg : string) : Exn := mkExn "ValueError" msg.

(** The outcome of a call: an exception or a returned value. *)
Definition Result (A : Type) : Type := Exn + A.

(** One entry of [Chat.h]: [msg.role] and [msg.content]. *)
Record Message := mkMessage { msg_role : string; msg_content : option string }.

#[global] Instance Message_eq_dec : EqDecision Message.
Proof. solve_decision. Defined.

(** Python's [l[start:]] for any integer [start]: a negative [start] counts
    from the end and is clipped at the front, a non-negative one is clipped
    at the end. *)
Definition slice_from {A : Type} (start : Z) (l : list A) : list A :=
  let len := Z.of_nat (length l) in
  let i := if start <? 0 then Z.max (len + start) 0 else Z.min start len in
  drop (Z.to_nat i) l.

(** [a or b] on an optional string: [None] and [""] are falsy. *)
Definition py_or (a : option string) (b : string) : string :=
  match a with
  | None => b
  | Some EmptyString => b
  | Some v => v
  end.

(** ** cosma.core and the [Chain] class of cosma.chain *)

Section Client.

(** The types of the client library that the package only passes on. *)
Context {Tool Kwargs Response World : Type}.

(** The state of a [cosette.Chat] that the package reads or writes.
    [h = None] stands for a chat object without attribute [h]
    (the source asks [hasattr(self.chat, 'h')]). *)
Record Chat := mkChat {
  chat_model : string;
  chat_tools : list Tool;
  sp : string;
  h : option (list Message)
}.

Definition set_sp (c : Chat) (v : string) : Chat :=
  mkChat (chat_model c) (chat_tools c) v (h c).

Definition set_h (c : Chat) (v : list Message) : Chat :=
  mkChat (chat_model c) (chat_tools c) (sp c) (Some v).

(** The [Agent] dataclass; [memory_size = None] is the unset value the
    source tests with [is None]. *)
Record Agent := mkAgent {
  role : string;
  model : string;
  tools : list Tool;
  system : option string;
  memory_size : option Z;
  chat : Chat
}.

Definition set_chat (self : Agent) (c : Chat) : Agent :=
  mkAgent (role self) (model self) (tools self) (system self)
          (memory_size self) c.

(** The client library: the registry [cosette.models], the constructor
    [Chat(model, tools=...)], [Chat.toolloop], [contents] and the text
    Python prints for the registry in an f-string.  [World] is whatever
    the client depends on outside the chat object (the remote model, the
    network, the tools' own state). *)
Variable models : list string.
Variable models_str : string.
Variable Chat_new : World -> string -> list Tool -> World * Result Chat.
Variable toolloop :
  World -> Chat -> string -> Z -> Kwargs -> World * Chat * Result Response.
Variable contents : Response -> string.

(** [Agent(role, model, tools, system, memory_size)]: the dataclass
    stores the fields and runs [__post_init__]. *)
Definition Agent_init (w : World) (role model : string) (tools : list Tool)
    (system : option string) (memory_size : option Z)
    : World * Result Agent :=
  if bool_decide (model ∉ models) then
    (w, inl (ValueError ("Model " +:+ model +:+
                         " not in available models: " +:+ models_str)))
  else
    match Chat_new w model tools with
    | (w', inl e) => (w', inl e)
    | (w', inr c) =>
        let c := set_sp c (py_or system ("You are a " +:+ role +:+ ".")) in
        (w', inr (mkAgent role model tools system memory_size c))
    end.

(** [Agent._prune_history] *)
Definition _prune_history (self : Agent) : Agent :=
  match memory_size self with
  | None => self
  | Some n =>
      if n <=? 0 then self
      else
        match h (chat self) with
        | None => self
        | Some hist =>
            if Z.of_nat (length hist) >? n + 1 then
              let system_msgs :=
                filter (λ msg, msg_role msg = "system") hist in
              let other_msgs :=
                slice_from (- n)
                  (filter (λ msg, msg_role msg ≠ "system") hist) in
              set_chat self (set_h (chat self) (system_msgs ++ other_msgs))
            else self
        end
  end.

(** [Agent.run_with_tools]: trim, then hand the chat to the client.  The
    client changes the chat object whether it returns or raises. *)
Definition run_with_tools (w : World) (self : Agent) (prompt : string)
    (max_steps : Z) (kwargs : Kwargs) : World * Agent * Result string :=
  let self := _prune_history self in
  match toolloop w (chat self) prompt max_steps kwargs with
  | (w', c', inl e) => (w', set_chat self c', inl e)
  | (w', c', inr response) => (w', set_chat self c', inr (contents response))
  end.

(** *** cosma.chain *)

(** Python objects are shared by reference: a chain lists references to
    agents, and the same agent may be listed more than once.  The heap
    maps a reference to the current state of the agent it names. *)
Definition Heap : Type := nat → Agent.

Definition heap_set (hp : Heap) (r : nat) (a : Agent) : Heap :=
  λ r', if decide (r' = r) then a else hp r'.

(** [dict(agent=a, input=curr_input, output=result)] *)
Record Step := mkStep {
  step_agent : nat;
  step_input : string;
  step_output : string
}.

(** A validator is a callable on a step output; it answers or raises. *)
Definition Validator : Type := string → Result bool.

(** The [Chain] dataclass, with the [history] attribute that
    [__post_init__] adds. *)
Record Chain := mkChain {
  name : string;
  agents : list nat;
  steps : list Step;
  input_type : string;
  output_type : string;
  validators : list Validator;
  history : list string
}.

(** [Chain(name, agents, steps, input_type, output_type, validators)];
    [Chain_new name] is [Chain(name)] with the dataclass defaults. *)
Definition Chain_init (name : string) (agents : list nat)
    (steps : list Step) (input_type output_type : string)
    (validators : list Validator) : Chain :=
  mkChain name agents steps input_type output_type validators [].

Definition Chain_new (name : string) : Chain :=
  Chain_init name [] [] "text" "text" [].

Definition set_agents (self : Chain) (v : list nat) : Chain :=
  mkChain (name self) v (steps self) (input_type self) (output_type self)
          (validators self) (history self).

Definition set_steps (self : Chain) (v : list Step) : Chain :=
  mkChain (name self) (agents self) v (input_type self) (output_type self)
          (validators self) (history self).

Definition set_validators (self : Chain) (v : list Validator) : Chain :=
  mkChain (name self) (agents self) (steps self) (input_type self)
          (output_type self) v (history self).

(** The loop of [Chain.validate]: [results.append(v(step_output))] for
    each validator in turn; the first exception leaves the loop. *)
Fixpoint validate_loop (vs : list Validator) (step_output : string)
    (results : list bool) : Result (list bool) :=
  match vs with
  | [] => inr results
  | v :: vs' =>
      match v step_output with
      | inl e => inl e
      | inr b => validate_loop vs' step_output (results ++ [b])
      end
  end.

(** Python's [all] on a list of booleans. *)
Definition py_all (results : list bool) : bool := forallb id results.

(** [Chain.validate] *)
Definition validate (self : Chain) (step_output : string) (step_num : Z)
    : Result bool :=
  match validate_loop (validators self) step_output [] with
  | inl e => inl e
  | inr results => inr (py_all results)
  end.

(** [run_with_tools(result)] as [Chain.__call__] calls it:
    [max_steps] takes its default 5 and no keyword is passed. *)
Variable no_kwargs : Kwargs.

(** The loop of [Chain.__call__] over [self.agents]; [steps] is
    [self.steps] and [result] the loop variable of that name. *)
Fixpoint call_loop (w : World) (hp : Heap) (todo : list nat)
    (steps : list Step) (result : string)
    : World * Heap * list Step * Result string :=
  match todo with
  | [] => (w, hp, steps, inr result)
  | a :: todo' =>
      let curr_input := result in
      match run_with_tools w (hp a) result 5 no_kwargs with
      | (w', a', inl e) => (w', heap_set hp a a', steps, inl e)
      | (w', a', inr result) =>
          call_loop w' (heap_set hp a a') todo'
            (steps ++ [mkStep a curr_input result]) result
      end
  end.

(** [Chain.__call__] *)
Definition Chain_call (w : World) (hp : Heap) (self : Chain) (x : string)
    : World * Heap * Chain * Result string :=
  match call_loop w hp (agents self) (steps self) x with
  | (w', hp', steps', r) => (w', hp', set_steps self steps', r)
  end.

End Client.

(** ** Regular expressions, as far as [extract_xml] uses [re] *)

Module Re.

(** A character is a code point below 256.  [isspace] is [str.isspace]
    on that range, which is also what [\s] matches in a [str] pattern:
    TAB to CR, FS to US, space, NEL and the no-break space. *)
Definition isspace (c : ascii) : bool :=
  let n := N_of_ascii c in
  ((9 <=? n) && (n <=? 13) || (28 <=? n) && (n <=? 32)
   || (n =? 133) || (n =? 160))%N.

(** [.] under [re.DOTALL] *)
Definition anychar (c : ascii) : bool := true.

(** The compiled form of the patterns the package writes:
    literal text, [c*] and [c*?] over a character class, the greedy
    option [(?:r)?], the capturing group [(r)] (there is one group, so
    it is group 1) and concatenation. *)
Inductive regex : Type :=
| Lit (s : string)
| Star (cls : ascii → bool)
| LazyStar (cls : ascii → bool)
| Opt (r : regex)
| Group (r : regex)
| Seq (r1 r2 : regex).

(** [s] without its prefix [p], if [s] starts with [p]. *)
Fixpoint strip_prefix (p s : string) : option string :=
  match p, s with
  | EmptyString, _ => Some s
  | String a p', String b s' =>
      if Ascii.eqb a b then strip_prefix p' s' else None
  | String _ _, EmptyString => None
  end.

(** The text between the start [s] of a group and the [rest] left when
    the group is closed. *)
Definition consumed (s rest : string) : string :=
  substring 0 (String.length s - String.length rest) s.

Section Backtrack.
Context {R : Type}.

(** The first result among: first alternative, else second. *)
Definition orelse (a : option R) (b : option R) : option R :=
  match a with Some r => Some r | None => b end.

(** Greedy [c*]: take one more character first, give it back if the
    continuation fails. *)
Fixpoint star (cls : ascii → bool) (s : string)
    (k : string → option R) : option R :=
  match s with
  | String c s' =>
      if cls c then orelse (star cls s' k) (k s) else k s
  | EmptyString => k s
  end.

(** Lazy [c*?]: try the continuation first, take one more character
    if it fails. *)
Fixpoint lazy_star (cls : ascii → bool) (s : string)
    (k : string → option R) : option R :=
  orelse (k s)
    match s with
    | String c s' => if cls c then lazy_star cls s' k else None
    | EmptyString => None
    end.

(** Backtracking match of [r] at the start of [s]; [g] is group 1 so
    far and [k] is what must match after [r]. *)
Fixpoint exec (r : regex) (s : string) (g : option string)
    (k : string → option string → option R) : option R :=
  match r with
  | Lit p =>
      match strip_prefix p s with
      | Some rest => k rest g
      | None => None
      end
  | Star cls => star cls s (λ rest, k rest g)
  | LazyStar cls => lazy_star cls s (λ rest, k rest g)
  | Opt r' => orelse (exec r' s g k) (k s g)
  | Group r' => exec r' s g (λ rest _, k rest (Some (consumed s rest)))
  | Seq r1 r2 => exec r1 s g (λ rest g', exec r2 rest g' k)
  end.
End Backtrack.

(** Every match of [r] closes a group. *)
Fixpoint groups_always (r : regex) : bool :=
  match r with
  | Group _ => true
  | Seq r1 r2 => groups_always r1 || groups_always r2
  | Lit _ | Star _ | LazyStar _ | Opt _ => false
  end.

(** [re.search(r, s)]: the match at the leftmost position that has one;
    the value is [match.group(1)], [None] when the group took no part. *)
Fixpoint search (r : regex) (s : string) : option (option string) :=
  match exec r s None (λ _ g, Some g) with
  | Some g => Some g
  | None =>
      match s with
      | String _ s' => search r s'
      | EmptyString => None
      end
  end.

(** [str.lstrip], [str.rstrip] and [str.strip] without argument. *)
Fixpoint lstrip (s : string) : string :=
  match s with
  | String c s' => if isspace c then lstrip s' else s
  | EmptyString => EmptyString
  end.

Fixpoint rstrip (s : string) : string :=
  match s with
  | String c s' =>
      match rstrip s' with
      | EmptyString => if isspace c then EmptyString else String c EmptyString
      | t => String c t
      end
  | EmptyString => EmptyString
  end.

Definition strip (s : string) : string := rstrip (lstrip s).

End Re.

(** ** [extract_xml] of cosma.chain *)

(** The characters with a meaning of their own in a pattern.  The source
    splices [tag] into the pattern text unescaped; for a tag without such
    a character the spliced text is a literal, which is what [pattern]
    builds. *)
Definition re_special (c : ascii) : bool :=
  existsb (Ascii.eqb c)
    (list_ascii_of_string ".^$*+?{}[]\|()").

Fixpoint plain_tag (tag : string) : bool :=
  match tag with
  | String c t => negb (re_special c) && plain_tag t
  | EmptyString => true
  end.

(** [<tag>] and [</tag>] *)
Definition open_tag (tag : string) : string := "<" +:+ tag +:+ ">".
Definition close_tag (tag : string) : string := "</" +:+ tag +:+ ">".

(** The end of the pattern, [(?:\]\]>)?\s*</{tag}>]. *)
Definition closing (tag : string) : Re.regex :=
  Re.Seq (Re.Opt (Re.Lit "]]>"))
  (Re.Seq (Re.Star Re.isspace)
          (Re.Lit (close_tag tag))).

(** What follows the first [\s*] of the pattern,
    [(?:<!\[CDATA\[)?(.*?)(?:\]\]>)?\s*</{tag}>]. *)
Definition content (tag : string) : Re.regex :=
  Re.Seq (Re.Opt (Re.Lit "<![CDATA["))
  (Re.Seq (Re.Group (Re.LazyStar Re.anychar))
          (closing tag)).

(** [f'<{tag}>\s*(?:<!\[CDATA\[)?(.*?)(?:\]\]>)?\s*</{tag}>'],
    compiled with [re.DOTALL]. *)
Definition pattern (tag : string) : Re.regex :=
  Re.Seq (Re.Lit (open_tag tag))
  (Re.Seq (Re.Star Re.isspace)
          (content tag)).

(** [extract_xml].  In [pattern] group 1 takes part in every match
    (see [search_pattern_group]), so the second case never runs; Python
    would raise there, on [None.strip()]. *)
Definition extract_xml (text tag : string) : string :=
  match Re.search (pattern tag) text with
  | Some (Some g) => Re.strip g
  | Some None => ""
  | None => ""
  end.

(** ** Vocabulary of the specification *)

Abbreviation is_system := (λ msg : Message, msg_role msg = "system") (only parsing).
Abbreviation non_system := (λ msg : Message, msg_role msg ≠ "system") (only parsing).

(** The last [n] elements of [l], all of [l] when it has fewer. *)
Definition last_n {A : Type} (n : nat) (l : list A) : list A :=
  reverse (take n (reverse l)).

(** The number of messages whose role is not [system]. *)
Definition non_system_count (hist : list Message) : nat :=
  length (filter non_system hist).

(** Every system message stands before every other message. *)
Definition system_first (hist : list Message) : Prop :=
  hist = filter is_system hist ++ filter non_system hist.

#[global] Instance system_first_dec hist : Decision (system_first hist).
Proof. unfold system_first. apply _. Defined.

(** Every character of [s] satisfies [p]. *)
Fixpoint all_chars (p : ascii → bool) (s : string) : bool :=
  match s with
  | String c s' => p c && all_chars p s'
  | EmptyString => true
  end.



(** Each step takes as input what the step before it gave as output: the
    first takes [x], the last gives [r]. *)
Fixpoint linked (x : string) (trace : list Step) (r : string) : Prop :=
  match trace with
  | [] => x = r
  | s :: trace' => step_input s = x ∧ linked (step_output s) trace' r
  end.

(** ** A small client, for concrete runs

    Its chat appends the user's prompt and one assistant message, as the
    client library does for a turn without tool calls, and answers
    with the prompt in brackets.  A chat whose model is ["offline"]
    raises after recording the prompt. *)

Module Demo.

Definition models : list string := ["gpt-4o"; "offline"].
Definition models_str : string := "['gpt-4o', 'offline']".

Definition Chat_new (w : unit) (model : string) (tools : list string)
    : unit * Result (@Chat string) :=
  (w, inr (mkChat model tools "" (Some []))).

Definition reply (prompt : string) : string := "[" +:+ prompt +:+ "]".

Definition toolloop (w : unit) (c : @Chat string) (prompt : string)
    (max_steps : Z) (kwargs : unit) : unit * @Chat string * Result string :=
  let hist := default [] (h c) in
  let asked := hist ++ [mkMessage "user" (Some prompt)] in
  if String.eqb (chat_model c) "offline" then
    (w, set_h c asked, inl (mkExn "APIConnectionError" "Connection error."))
  else
    (w, set_h c (asked ++ [mkMessage "assistant" (Some (reply prompt))]),
     inr (reply prompt)).

Definition contents (response : string) : string := response.

Definition run_with_tools :=
  @run_with_tools string unit string unit toolloop contents.

Definition Chain_call :=
  @Chain_call string unit string unit toolloop contents tt.

Definition Agent_init :=
  @Agent_init string unit models models_str Chat_new.

(** [Agent("writer", "gpt-4o", memory_size=n)] with history [hist] *)
Definition writer (n : option Z) (hist : list Message) : @Agent string :=
  mkAgent "writer" "gpt-4o" [] None n
    (mkChat "gpt-4o" [] "You are a writer." (Some hist)).

(** [Agent("translator", "offline")] *)
Definition translator : @Agent string :=
  mkAgent "translator" "offline" [] None (Some 10)
    (mkChat "offline" [] "You are a translator." (Some [])).

Definition heap : @Heap string :=
  λ r, match r with O => writer (Some 10) [] | _ => translator end.

Definition usr (t : string) : Message := mkMessage "user" (Some t).
Definition bot (t : string) : Message := mkMessage "assistant" (Some t).
Definition sys (t : string) : Message := mkMessage "system" (Some t).

Definition nonempty (out : string) : Result bool :=
  inr (negb (String.eqb out "")).
Definition short (out : string) : Result bool :=
  inr (Nat.leb (String.length out) 3).

End Demo.

(** ** [Agent._format_history] of cosma.core *)

(** [sep.join(parts)] *)
Fixpoint py_join (sep : string) (parts : list string) : string :=
  match parts with
  | [] => ""
  | p :: ps =>
      match ps with
      | [] => p
      | _ :: _ => p +:+ sep +:+ py_join sep ps
      end
  end.

(** Two line feeds, the separator of the rendered messages. *)
Definition blank_line : string := String "010" (String "010" "").

Section History.

Context {Tool : Type}.

(** [str.capitalize], of the Python library. *)
Variable capitalize : string → string.

(** The line the loop appends for one message. *)
Definition format_line (msg : Message) : string :=
  let role := capitalize (msg_role msg) in
  let content := py_or (msg_content msg) "" in
  "**" +:+ role +:+ ":** " +:+ content.

(** [Agent._format_history] *)
Definition _format_history (self : @Agent Tool) : string :=
  let lines :=
    match h (chat self) with
    | Some hist =>
        if bool_decide (hist ≠ []) then format_line <$> hist else []
    | None => []
    end in
  py_join blank_line lines.

End History.

(** ** cosma.logging: the set-up of [AgentLogger] *)

Module Logging.

(** A handler of the [logging] library with its format string:
    [StreamHandler()], which writes to standard error, or
    [FileHandler(path)]. *)
Inductive Handler : Type :=
| StreamHandler (fmt : string)
| FileHandler (path : string) (fmt : string).

(** A logger of the library: its level and its own handlers. *)
Record Logger := mkLogger { logger_level : Z; handlers : list Handler }.

(** The loggers the library keeps by name.  [logging.getLogger(name)] is
    the logger kept under [name]; when there is none yet it is a new one,
    at level [NOTSET] (0) and without handlers, kept from then on. *)
Definition getLogger (reg : gmap string Logger) (name : string) : Logger :=
  default (mkLogger 0 []) (reg !! name).

(** [logger.setLevel(level)] and [logger.addHandler(hd)] with a handler
    made for the call, so one the logger does not have yet. *)
Definition setLevel (lg : Logger) (level : Z) : Logger :=
  mkLogger level (handlers lg).

Definition addHandler (lg : Logger) (hd : Handler) : Logger :=
  mkLogger (logger_level lg) (handlers lg ++ [hd]).

(** The [AgentLogger] dataclass; [logger] is the name under which the
    library keeps [self.logger]. *)
Record AgentLogger := mkAgentLogger {
  name : string;
  level : Z;
  log_dir : option string;
  logger : string
}.

(** The double quote. *)
Definition dq : string := String "034" "".

(** [AgentLogger._get_formatter]: the format string of the
    [logging.Formatter] it makes. *)
Definition _get_formatter : string :=
  "[%(asctime)s] %(name)s - %(levelname)s - "
  +:+ "{" +:+ dq +:+ "event" +:+ dq +:+ ": " +:+ dq +:+ "%(event)s" +:+ dq
  +:+ ", " +:+ dq +:+ "data" +:+ dq +:+ ": %(message)s}".

(** [if self.log_dir]: [None] and the empty string are falsy. *)
Definition truthy (a : option string) : bool :=
  match a with
  | Some (String _ _) => true
  | Some EmptyString => false
  | None => false
  end.

Section Setup.

(** The file system, and what the set-up asks of it and of [pathlib]:
    [Path(d).mkdir(parents=True, exist_ok=True)], the opening of the log
    file by [FileHandler], [Path(d) / file], and the exception of
    [Path(None)]. *)
Context {FS : Type}.
Variable mkdir_parents : FS → string → FS * Result unit.
Variable open_append : FS → string → FS * Result unit.
Variable path_join : string → string → string.
Variable Path_of_None : Exn.

(** [AgentLogger._setup_console_handler] *)
Definition _setup_console_handler (reg : gmap string Logger)
    (self : AgentLogger) : gmap string Logger :=
  let console := StreamHandler _get_formatter in
  <[logger self := addHandler (getLogger reg (logger self)) console]> reg.

(** [AgentLogger._setup_file_handler] *)
Definition _setup_file_handler (reg : gmap string Logger) (fs : FS)
    (self : AgentLogger) : gmap string Logger * FS * Result unit :=
  match log_dir self with
  | None => (reg, fs, inl Path_of_None)
  | Some dir =>
      match mkdir_parents fs dir with
      | (fs1, inl e) => (reg, fs1, inl e)
      | (fs1, inr _) =>
          let path := path_join dir (name self +:+ ".log") in
          match open_append fs1 path with
          | (fs2, inl e) => (reg, fs2, inl e)
          | (fs2, inr _) =>
              let file_handler := FileHandler path _get_formatter in
              (<[logger self :=
                   addHandler (getLogger reg (logger self)) file_handler]> reg,
               fs2, inr tt)
          end
      end
  end.

(** [AgentLogger(name, level, log_dir)]: the dataclass stores the fields
    and runs [__post_init__]. *)
Definition AgentLogger_init (reg : gmap string Logger) (fs : FS)
    (name : string) (level : Z) (log_dir : option string)
    : gmap string Logger * FS * Result AgentLogger :=
  let self := mkAgentLogger name level log_dir ("agent." +:+ name) in
  let reg1 :=
    <[logger self := setLevel (getLogger reg (logger self)) level]> reg in
  match handlers (getLogger reg1 (logger self)) with
  | [] =>
      let reg2 := _setup_console_handler reg1 self in
      if truthy log_dir then
        match _setup_file_handler reg2 fs self with
        | (reg3, fs3, inl e) => (reg3, fs3, inl e)
        | (reg3, fs3, inr _) => (reg3, fs3, inr self)
        end
      else (reg2, fs, inr self)
  | _ :: _ => (reg1, fs, inr self)
  end.

End Setup.

End Logging.

(** ** Vocabulary of the further properties *)

(** The configuration of an agent, all but its chat. *)
Definition same_config {Tool : Type} (a b : @Agent Tool) : Prop :=
  role a = role b ∧ model a = model b ∧ tools a = tools b
  ∧ system a = system b ∧ memory_size a = memory_size b.

(** [p] occurs in [s]. *)
Definition contains (p s : string) : Prop :=
  ∃ a b, s = a +:+ p +:+ b.

(** [matches r u g g']: [r] can match the text [u], taking group 1 from
    [g] to [g'].  This says which texts a pattern matches, not which
    match a search prefers. *)
Inductive matches : Re.regex → string → option string → option string → Prop :=
| matches_lit p g : matches (Re.Lit p) p g g
| matches_star cls u g :
    all_chars cls u = true → matches (Re.Star cls) u g g
| matches_lazy_star cls u g :
    all_chars cls u = true → matches (Re.LazyStar cls) u g g
| matches_opt_skip r g : matches (Re.Opt r) "" g g
| matches_opt_take r u g g' : matches r u g g' → matches (Re.Opt r) u g g'
| matches_group r u g g' :
    matches r u g g' → matches (Re.Group r) u g (Some u)
| matches_seq r1 r2 u1 u2 g g1 g2 :
    matches r1 u1 g g1 → matches r2 u2 g1 g2 →
    matches (Re.Seq r1 r2) (u1 +:+ u2) g g2.

(** ** More of the small client and its surroundings *)

Module Samples.

(** [str.capitalize] on text of ASCII letters. *)
Definition upper (c : ascii) : ascii :=
  let n := nat_of_ascii c in
  if (97 <=? n)%nat && (n <=? 122)%nat then ascii_of_nat (n - 32) else c.

Definition lower (c : ascii) : ascii :=
  let n := nat_of_ascii c in
  if (65 <=? n)%nat && (n <=? 90)%nat then ascii_of_nat (n + 32) else c.

Fixpoint lower_all (s : string) : string :=
  match s with
  | String c s' => String (lower c) (lower_all s')
  | EmptyString => EmptyString
  end.

Definition capitalize (s : string) : string :=
  match s with
  | String c s' => String (upper c) (lower_all s')
  | EmptyString => EmptyString
  end.

(** A client without credentials: [Chat(model, tools=...)] raises. *)
Definition Chat_new_no_key (w : unit) (model : string) (tools : list string)
    : unit * Result (@Chat string) :=
  (w, inl (mkExn "OpenAIError" "The api_key client option must be set")).

Definition Agent_init_no_key :=
  @Agent_init string unit Demo.models Demo.models_str Chat_new_no_key.

(** A file system that is the list of the directories made and files
    opened, and refuses to make a directory under [/proc]. *)
Definition mkdir_parents (fs : list string) (dir : string)
    : list string * Result unit :=
  if String.prefix "/proc" dir
  then (fs, inl (mkExn "PermissionError" dir))
  else (fs ++ [dir], inr tt).

Definition open_append (fs : list string) (path : string)
    : list string * Result unit :=
  (fs ++ [path], inr tt).

Definition path_join (dir file : string) : string := dir +:+ "/" +:+ file.

Definition Path_of_None : Exn := mkExn "TypeError" "".

Definition AgentLogger_init :=
  Logging.AgentLogger_init mkdir_parents open_append path_join Path_of_None.

End Samples.

(** * Properties *)

(** ** Slices and the last elements of a list *)

Lemma slice_from_neg {A : Type} (n : Z) (l : list A) :
  0 < n → slice_from (- n) l = drop (length l - Z.to_nat n) l.
Proof.
  intros Hn. unfold slice_from.
  destruct (Z.ltb_spec (- n) 0) as [_|?]; [|lia].
  f_equal. lia.
Qed.

Lemma last_n_drop {A : Type} (n : nat) (l : list A) :
  last_n n l = drop (length l - n) l.
Proof. unfold last_n. by rewrite take_reverse, reverse_involutive. Qed.

Lemma slice_from_last_n {A : Type} (n : Z) (l : list A) :
  0 < n → slice_from (- n) l = last_n (Z.to_nat n) l.
Proof. intros Hn. by rewrite slice_from_neg, last_n_drop. Qed.

Lemma last_n_length {A : Type} (n : nat) (l : list A) :
  length (last_n n l) = min n (length l).
Proof. rewrite last_n_drop, length_drop. lia. Qed.

Lemma last_n_all {A : Type} (n : nat) (l : list A) :
  (length l ≤ n)%nat → last_n n l = l.
Proof.
  intros Hle. rewrite last_n_drop.
  replace (length l - n)%nat with 0%nat by lia. apply drop_0.
Qed.

Lemma last_n_sublist {A : Type} (n : nat) (l : list A) :
  last_n n l `sublist_of` l.
Proof. rewrite last_n_drop. apply sublist_drop. Qed.

(** ** Filtering a history by role *)

Lemma filter_system_non_system (l : list Message) :
  filter is_system (filter non_system l) = [].
Proof.
  rewrite list_filter_filter.
  induction l as [|m l IH]; [done|].
  rewrite filter_cons_False; [done|]. intros [? ?]. done.
Qed.

Lemma filter_non_system_system (l : list Message) :
  filter non_system (filter is_system l) = [].
Proof.
  rewrite list_filter_filter.
  induction l as [|m l IH]; [done|].
  rewrite filter_cons_False; [done|]. intros [? ?]. done.
Qed.

Lemma filter_system_idemp (l : list Message) :
  filter is_system (filter is_system l) = filter is_system l.
Proof. by apply list_filter_filter_l. Qed.

Lemma filter_sublist_nil {A : Type} (P : A → Prop) `{!∀ x, Decision (P x)}
    (k l : list A) :
  k `sublist_of` l → filter P l = [] → filter P k = [].
Proof.
  intros Hsub Hnil.
  assert (Hs : filter P k `sublist_of` filter P l).
  { clear Hnil. induction Hsub as [|x k l _ IH|x k l _ IH].
    - done.
    - rewrite !filter_cons. case_decide; [by constructor|done].
    - rewrite filter_cons. case_decide; [by constructor|done]. }
  rewrite Hnil in Hs. by apply sublist_nil_r in Hs.
Qed.

Lemma filter_id {A : Type} (P : A → Prop) `{!∀ x, Decision (P x)}
    (l : list A) :
  Forall P l → filter P l = l.
Proof.
  induction 1 as [|x l Hx _ IH]; [done|].
  by rewrite filter_cons_True, IH.
Qed.

Lemma filter_non_system_last_n (n : nat) (l : list Message) :
  filter non_system (last_n n (filter non_system l))
  = last_n n (filter non_system l).
Proof.
  apply filter_id, Forall_forall. intros m Hm.
  apply (sublist_subseteq _ _ (last_n_sublist n _)) in Hm.
  by apply list_elem_of_filter in Hm as [? _].
Qed.

Lemma filter_system_last_n (n : nat) (l : list Message) :
  filter is_system (last_n n (filter non_system l)) = [].
Proof.
  eapply filter_sublist_nil; [apply last_n_sublist|].
  apply filter_system_non_system.
Qed.

(** The history that a trim which fires leaves behind. *)
Lemma trimmed_filter_system (n : nat) (l : list Message) :
  filter is_system (filter is_system l ++ last_n n (filter non_system l))
  = filter is_system l.
Proof.
  by rewrite filter_app, filter_system_idemp, filter_system_last_n, app_nil_r.
Qed.

Lemma trimmed_filter_non_system (n : nat) (l : list Message) :
  filter non_system (filter is_system l ++ last_n n (filter non_system l))
  = last_n n (filter non_system l).
Proof.
  by rewrite filter_app, filter_non_system_system, filter_non_system_last_n.
Qed.

Lemma length_filter_split (l : list Message) :
  length l = (length (filter is_system l) + non_system_count l)%nat.
Proof.
  unfold non_system_count. induction l as [|m l IH]; [done|].
  rewrite !filter_cons. simpl.
  destruct (decide (msg_role m = "system")), (decide (msg_role m ≠ "system"));
    simpl; try lia; done.
Qed.

(** ** The trim operation *)

Section Trim.

Context {Tool : Type}.
Implicit Types (self : @Agent Tool) (hist : list Message) (n : Z).

Lemma set_h_same (c : @Chat Tool) hist : h c = Some hist → set_h c hist = c.
Proof. destruct c; simpl. by intros ->. Qed.

Lemma prune_history_off self :
  memory_size self = None ∨ (∃ n, memory_size self = Some n ∧ n ≤ 0) →
  _prune_history self = self.
Proof.
  unfold _prune_history. intros [->|(n & -> & Hn)]; [done|].
  by destruct (Z.leb_spec n 0); [|lia].
Qed.

Lemma prune_history_fires self n hist :
  memory_size self = Some n → 0 < n → h (chat self) = Some hist →
  n + 1 < Z.of_nat (length hist) →
  _prune_history self
  = set_chat self (set_h (chat self)
      (filter is_system hist ++ last_n (Z.to_nat n) (filter non_system hist))).
Proof.
  intros Hm Hn Hh Hlen. unfold _prune_history. rewrite Hm, Hh.
  destruct (Z.leb_spec n 0); [lia|].
  destruct (Z.gtb_spec (Z.of_nat (length hist)) (n + 1)); [|lia].
  by rewrite slice_from_last_n.
Qed.

Lemma prune_history_keeps self n hist :
  memory_size self = Some n → h (chat self) = Some hist →
  Z.of_nat (length hist) ≤ n + 1 →
  _prune_history self = self.
Proof.
  intros Hm Hh Hlen. unfold _prune_history. rewrite Hm, Hh.
  destruct (Z.leb_spec n 0); [done|].
  by destruct (Z.gtb_spec (Z.of_nat (length hist)) (n + 1)); [lia|].
Qed.

Lemma prune_history_no_h self :
  h (chat self) = None → _prune_history self = self.
Proof.
  intros Hh. unfold _prune_history. rewrite Hh.
  destruct (memory_size self) as [n|]; [|done]. by destruct (n <=? 0).
Qed.

Lemma set_chat_prune_history self (c : @Chat Tool) :
  set_chat (_prune_history self) c = set_chat self c.
Proof.
  unfold _prune_history. destruct (memory_size self) as [n|]; [|done].
  destruct (n <=? 0); [done|]. destruct (h (chat self)); [|done].
  by destruct (_ >? _).
Qed.

(** C2: the trim does nothing when [memory_size] is unset or at most 0;
    otherwise, when more than [memory_size + 1] messages are stored, it
    replaces the history by all system messages followed by the last
    [memory_size] other messages, each group in its original order; and
    when at most [memory_size + 1] messages are stored it does nothing. *)
Theorem prune_history_spec self :
  (memory_size self = None ∨ (∃ n, memory_size self = Some n ∧ n ≤ 0) →
   _prune_history self = self)
  ∧ (∀ n hist,
      memory_size self = Some n → 0 < n → h (chat self) = Some hist →
      (n + 1 < Z.of_nat (length hist) →
         _prune_history self
         = set_chat self (set_h (chat self)
             (filter is_system hist
              ++ last_n (Z.to_nat n) (filter non_system hist)))
         ∧ filter is_system hist `sublist_of` hist
         ∧ last_n (Z.to_nat n) (filter non_system hist) `sublist_of` hist)
      ∧ (Z.of_nat (length hist) ≤ n + 1 → _prune_history self = self)).
Proof.
  split; [apply prune_history_off|].
  intros n hist Hm Hn Hh. split.
  - intros Hlen. split; [by apply prune_history_fires|]. split.
    + apply sublist_filter.
    + etrans; [apply last_n_sublist|apply sublist_filter].
  - intros Hlen. by eapply prune_history_keeps.
Qed.

(** C9: trimming twice is trimming once. *)
Theorem prune_history_idempotent self :
  _prune_history (_prune_history self) = _prune_history self.
Proof.
  destruct (memory_size self) as [n|] eqn:Hm;
    [|by rewrite !(prune_history_off self) by auto].
  destruct (Z.le_gt_cases n 0) as [Hn|Hn];
    [by rewrite !(prune_history_off self) by eauto|].
  destruct (h (chat self)) as [hist|] eqn:Hh;
    [|by rewrite !(prune_history_no_h self)].
  destruct (Z.le_gt_cases (Z.of_nat (length hist)) (n + 1)) as [Hlen|Hlen];
    [by rewrite !(prune_history_keeps self n hist)|].
  rewrite (prune_history_fires self n hist) by (done || lia).
  set (kept := filter is_system hist
               ++ last_n (Z.to_nat n) (filter non_system hist)).
  set (self' := set_chat self (set_h (chat self) kept)).
  destruct (Z.le_gt_cases (Z.of_nat (length kept)) (n + 1)) as [Hk|Hk];
    [by apply (prune_history_keeps self' n kept)|].
  rewrite (prune_history_fires self' n kept) by (done || lia).
  subst kept. rewrite trimmed_filter_system, trimmed_filter_non_system.
  rewrite (last_n_all _ (last_n _ _)) by (rewrite last_n_length; lia).
  done.
Qed.

End Trim.

(** ** A turn *)

Section Turn.

Context {Tool Kwargs Response World : Type}.
Variable toolloop :
  World → @Chat Tool → string → Z → Kwargs
  → World * @Chat Tool * Result Response.
Variable contents : Response → string.

Implicit Types (self : @Agent Tool) (hist sent : list Message) (n : Z).

(** What the trim leaves of a history, for a positive [memory_size]. *)
Lemma prune_history_sent self n hist :
  memory_size self = Some n → 0 < n → h (chat self) = Some hist →
  ∃ sent,
    chat (_prune_history self) = set_h (chat self) sent
    ∧ filter is_system sent = filter is_system hist
    ∧ Z.of_nat (non_system_count sent) ≤ n + 1
    ∧ (n + 1 < Z.of_nat (length hist) ∨ filter is_system hist ≠ [] →
       Z.of_nat (non_system_count sent) ≤ n)
    ∧ (n + 1 < Z.of_nat (length hist) → system_first sent).
Proof.
  intros Hm Hn Hh.
  destruct (Z.le_gt_cases (Z.of_nat (length hist)) (n + 1)) as [Hlen|Hlen].
  - exists hist. rewrite (prune_history_keeps self n hist) by done.
    rewrite set_h_same by done.
    pose proof (length_filter_split hist) as Hsplit.
    repeat split; [lia| |lia].
    intros [?|Hsys]; [lia|].
    destruct (filter is_system hist); [done|]. simpl in Hsplit. lia.
  - exists (filter is_system hist
            ++ last_n (Z.to_nat n) (filter non_system hist)).
    rewrite (prune_history_fires self n hist) by (done || lia).
    assert (Hcount : Z.of_nat (non_system_count
              (filter is_system hist
               ++ last_n (Z.to_nat n) (filter non_system hist))) ≤ n).
    { unfold non_system_count.
      rewrite trimmed_filter_non_system, last_n_length. lia. }
    repeat split; [apply trimmed_filter_system|lia|done|].
    intros _. unfold system_first.
    by rewrite trimmed_filter_system, trimmed_filter_non_system.
Qed.

(** C1, as the code has it: a turn trims first and then runs the client
    on the trimmed history; what the client appends stays until the next
    turn.  For [memory_size = n > 0] the history [sent] to the client
    holds every stored system message, in order, and at most [n + 1]
    other messages; at most [n] of them if more than [n + 1] messages
    were stored or one of them is a system message; and if more than
    [n + 1] messages were stored, the system messages of [sent] stand
    first.  The agent keeps the chat as the client leaves it. *)
Theorem run_with_tools_trims_before_client
    self n hist (w : World) (prompt : string) (max_steps : Z)
    (kwargs : Kwargs) :
  memory_size self = Some n → 0 < n → h (chat self) = Some hist →
  ∃ sent,
    (∀ w' c' r,
       toolloop w (set_h (chat self) sent) prompt max_steps kwargs
         = (w', c', r) →
       run_with_tools toolloop contents w self prompt max_steps kwargs
         = (w', set_chat self c', sum_map id contents r))
    ∧ filter is_system sent = filter is_system hist
    ∧ Z.of_nat (non_system_count sent) ≤ n + 1
    ∧ (n + 1 < Z.of_nat (length hist) ∨ filter is_system hist ≠ [] →
       Z.of_nat (non_system_count sent) ≤ n)
    ∧ (n + 1 < Z.of_nat (length hist) → system_first sent).
Proof.
  intros Hm Hn Hh.
  destruct (prune_history_sent self n hist Hm Hn Hh) as (sent & Hc & Hrest).
  exists sent. split; [|exact Hrest].
  intros w' c' r Hrun. unfold run_with_tools.
  rewrite Hc, Hrun, set_chat_prune_history. by destruct r.
Qed.

End Turn.

(** ** Construction of an agent *)

Section Construction.

Context {Tool World : Type}.
Variable models : list string.
Variable models_str : string.
Variable Chat_new :
  World → string → list Tool → World * Result (@Chat Tool).

Lemma py_or_nonempty (a : option string) (d : string) :
  d ≠ "" → py_or a d ≠ "".
Proof. intros Hd. by destruct a as [[|c v]|]. Qed.

Lemma Agent_init_registered w role model tools system memory_size w' c :
  model ∈ models → Chat_new w model tools = (w', inr c) →
  Agent_init models models_str Chat_new w role model tools system
    memory_size
  = (w', inr (mkAgent role model tools system memory_size
                (set_sp c (py_or system ("You are a " +:+ role +:+ "."))))).
Proof.
  intros Hin Hc. unfold Agent_init.
  rewrite bool_decide_eq_false_2 by (by intros ?). by rewrite Hc.
Qed.

(** C6, as the code has it: an agent whose model is not in the registry
    is not built: the constructor raises the invalid-model error (a
    [ValueError] naming the model) to its caller, before any chat session
    is opened.  With a registered model the constructor goes on to the
    client's [Chat(model, tools=...)]: when that returns, the agent is
    built on the chat it returned; when that raises, the constructor
    raises the same exception and no agent is built. *)
Theorem Agent_init_checks_model
    (w : World) (role model : string) (tools : list Tool)
    (system : option string) (memory_size : option Z) :
  (model ∉ models →
   Agent_init models models_str Chat_new w role model tools system
     memory_size
   = (w, inl (ValueError ("Model " +:+ model +:+
                          " not in available models: " +:+ models_str))))
  ∧ (model ∈ models →
     (∀ w' c,
        Chat_new w model tools = (w', inr c) →
        Agent_init models models_str Chat_new w role model tools system
          memory_size
        = (w', inr (mkAgent role model tools system memory_size
                      (set_sp c
                         (py_or system ("You are a " +:+ role +:+ "."))))))
     ∧ (∀ w' e,
        Chat_new w model tools = (w', inl e) →
        Agent_init models models_str Chat_new w role model tools system
          memory_size
        = (w', inl e))).
Proof.
  split.
  - intros Hnot. unfold Agent_init.
    by rewrite bool_decide_eq_true_2.
  - intros Hin. split.
    + intros w' c Hc. by apply Agent_init_registered.
    + intros w' e He. unfold Agent_init.
      rewrite bool_decide_eq_false_2 by (by intros ?). by rewrite He.
Qed.

(** C10: a [system] that is the empty string counts as absent: the
    system prompt of the chat is then the default built from the role;
    and whatever [system] is, the prompt of a built agent is not
    empty. *)
Theorem Agent_init_falsy_system
    (w : World) (role model : string) (tools : list Tool)
    (memory_size : option Z) (w' : World) (c : @Chat Tool) :
  model ∈ models → Chat_new w model tools = (w', inr c) →
  (∀ system, system = None ∨ system = Some "" →
     ∃ a,
       Agent_init models models_str Chat_new w role model tools system
         memory_size
       = (w', inr a)
       ∧ sp (chat a) = "You are a " +:+ role +:+ ".")
  ∧ (∀ system,
     ∃ a,
       Agent_init models models_str Chat_new w role model tools system
         memory_size
       = (w', inr a)
       ∧ sp (chat a) ≠ "").
Proof.
  intros Hin Hc. split.
  - intros system Hsys. eexists. split; [by apply Agent_init_registered|].
    by destruct Hsys as [->| ->].
  - intros system. eexists. split; [by apply Agent_init_registered|].
    simpl. by apply py_or_nonempty.
Qed.

End Construction.

(** ** Chains *)

Section Chains.

Context {Tool Kwargs Response World : Type}.
Variable toolloop :
  World → @Chat Tool → string → Z → Kwargs
  → World * @Chat Tool * Result Response.
Variable contents : Response → string.
Variable no_kwargs : Kwargs.

Local Abbreviation turn := (run_with_tools toolloop contents).
Local Abbreviation loop := (call_loop toolloop contents no_kwargs).

Implicit Types (self : Chain) (hp : @Heap Tool) (w : World)
               (trace : list Step) (x r : string).

Lemma set_steps_same self : set_steps self (steps self) = self.
Proof. by destruct self. Qed.

(** *** Linked traces *)

Lemma linked_first x trace r s :
  linked x trace r → trace !! 0%nat = Some s → step_input s = x.
Proof. destruct trace; [done|]. simpl. by intros [? _] [= ->]. Qed.

Lemma linked_next x trace r (i : nat) s t :
  linked x trace r → trace !! i = Some s → trace !! S i = Some t →
  step_output s = step_input t.
Proof.
  revert x i. induction trace as [|s0 trace IH]; intros x i; [done|].
  intros [_ Hl] Hs Ht. destruct i as [|i]; simpl in *.
  - injection Hs as ->. symmetry. by eapply linked_first.
  - by eapply IH.
Qed.

Lemma linked_last x trace r s :
  linked x trace r → last trace = Some s → step_output s = r.
Proof.
  revert x. induction trace as [|s0 trace IH]; intros x; [done|].
  intros [_ Hl] Hlast. destruct trace as [|s1 trace].
  - simpl in *. by injection Hlast as ->.
  - by eapply IH.
Qed.

(** *** The loop *)

(** A loop that returns has appended one linked step per agent. *)
Lemma call_loop_returns w hp (todo : list nat) trace x w' hp' trace' r :
  loop w hp todo trace x = (w', hp', trace', inr r) →
  ∃ new, trace' = trace ++ new
         ∧ step_agent <$> new = todo
         ∧ linked x new r.
Proof.
  revert w hp trace x. induction todo as [|a todo IH]; intros w hp trace x.
  - simpl. intros [= -> -> -> ->]. exists []. by rewrite app_nil_r.
  - simpl. destruct (turn w (hp a) x 5 no_kwargs) as [[w1 a1] [e|out]];
      [done|].
    intros Hloop. apply IH in Hloop as (new & -> & <- & Hl).
    exists (mkStep a x out :: new). by rewrite <-app_assoc.
Qed.

(** C4: a chain without agents returns its input and changes nothing,
    so it records no step. *)
Theorem Chain_call_empty w hp self x :
  agents self = [] →
  Chain_call toolloop contents no_kwargs w hp self x
  = (w, hp, self, inr x).
Proof.
  intros Hag. unfold Chain_call. rewrite Hag. simpl.
  by rewrite set_steps_same.
Qed.

(** C3: a call that returns on a fresh chain (no step recorded yet) with
    at least one agent leaves one step per agent; the first step has the
    input of the chain, each step has as output the input of the next,
    and the value returned is the output of the last step. *)
Theorem Chain_call_trace w hp self x w' hp' self' r :
  agents self ≠ [] → steps self = [] →
  Chain_call toolloop contents no_kwargs w hp self x
  = (w', hp', self', inr r) →
  length (steps self') = length (agents self)
  ∧ (∃ s, steps self' !! 0%nat = Some s ∧ step_input s = x)
  ∧ (∀ (i : nat) s t,
       steps self' !! i = Some s → steps self' !! S i = Some t →
       step_output s = step_input t)
  ∧ (∃ s, last (steps self') = Some s ∧ step_output s = r).
Proof.
  intros Hne Hfresh. unfold Chain_call.
  destruct (loop w hp (agents self) (steps self) x)
    as [[[w1 hp1] trace1] r1] eqn:Hloop.
  intros [= -> -> <- ->].
  apply call_loop_returns in Hloop as (new & -> & Hag & Hl).
  rewrite Hfresh. simpl.
  assert (Hlen : length new = length (agents self))
    by (by rewrite <-Hag, length_fmap).
  split; [done|]. split; [|split].
  - destruct new as [|s new]; [by destruct (agents self)|].
    exists s. split; [done|]. by destruct Hl.
  - intros i s t. by apply (linked_next x new r).
  - destruct (last new) as [s|] eqn:Hlast.
    + exists s. split; [done|]. by eapply linked_last.
    + apply last_None in Hlast as ->. by destruct (agents self).
Qed.

(** C5: two agents, the turn of the first returns [r1] and the turn of
    the second raises [e]: the call raises [e], and the step of the first
    agent stays recorded after the steps the chain had before; on a
    fresh chain it is the only step. *)
Theorem Chain_call_second_raises
    w hp self x (a1 a2 : nat) w1 (ag1 : @Agent Tool) r1 w2 ag2 (e : Exn) :
  agents self = [a1; a2] →
  run_with_tools toolloop contents w (hp a1) x 5 no_kwargs
  = (w1, ag1, inr r1) →
  run_with_tools toolloop contents w1 (heap_set hp a1 ag1 a2) r1 5 no_kwargs
  = (w2, ag2, inl e) →
  ∃ self',
    Chain_call toolloop contents no_kwargs w hp self x
    = (w2, heap_set (heap_set hp a1 ag1) a2 ag2, self', inl e)
    ∧ steps self' = steps self ++ [mkStep a1 x r1]
    ∧ (steps self = [] → steps self' = [mkStep a1 x r1]).
Proof.
  intros Hag H1 H2.
  exists (set_steps self (steps self ++ [mkStep a1 x r1])).
  split; [|split; [done|by intros ->]].
  unfold Chain_call. rewrite Hag. simpl. by rewrite H1, H2.
Qed.

(** *** Validators *)

Lemma validate_loop_inr (vs : list Validator) out (acc res : list bool) :
  validate_loop vs out acc = inr res
  ↔ ∃ bs, res = acc ++ bs ∧ Forall2 (λ v b, v out = inr b) vs bs.
Proof.
  revert acc. induction vs as [|v vs IH]; intros acc; simpl.
  - split.
    + intros [= <-]. exists []. by rewrite app_nil_r.
    + intros (bs & -> & Hbs). apply Forall2_nil_inv_l in Hbs as ->.
      by rewrite app_nil_r.
  - destruct (v out) as [e|b] eqn:Hv.
    + split; [done|]. intros (bs & _ & Hbs).
      apply Forall2_cons_inv_l in Hbs as (b & ? & Hb & _). congruence.
    + rewrite IH. split.
      * intros (bs & -> & Hbs). exists (b :: bs).
        rewrite <-app_assoc. split; [done|]. by constructor.
      * intros (bs & -> & Hbs).
        apply Forall2_cons_inv_l in Hbs as (b' & bs' & Hb & Hbs & ->).
        assert (b' = b) as -> by congruence.
        exists bs'. by rewrite <-app_assoc.
Qed.

Lemma py_all_true (vs : list Validator) out (bs : list bool) :
  Forall2 (λ v b, v out = inr b) vs bs →
  py_all bs = true ↔ ∀ v, v ∈ vs → v out = inr true.
Proof.
  unfold py_all. induction 1 as [|v b vs bs Hv _ IH]; simpl.
  - split; [|done]. intros _ v Hin. by apply elem_of_nil in Hin.
  - rewrite andb_true_iff, IH. split.
    + intros [Hb Hall] v' [->|Hin]%elem_of_cons; [|by apply Hall].
      unfold id in Hb. by rewrite Hv, Hb.
    + intros Hall. split.
      * assert (Hvt : v out = inr true) by (apply Hall; by left).
        rewrite Hvt in Hv. by injection Hv as <-.
      * intros v' Hin. apply Hall. by right.
Qed.

Lemma all_answer (vs : list Validator) out :
  (∀ v, v ∈ vs → v out = inr true) →
  Forall2 (λ v b, v out = inr b) vs (replicate (length vs) true).
Proof.
  induction vs as [|v vs IH]; intros Hall; simpl; constructor.
  - apply Hall. by left.
  - apply IH. intros v' Hin. apply Hall. by right.
Qed.

(** C8: [validate] runs every validator of the chain on the step output,
    in order, and returns true exactly when each of them returns true;
    and the validators have no part in a call of the chain: with any
    other list of validators the call gives the same world, agents,
    steps and result. *)
Theorem validate_conjunction self (step_output : string) (step_num : Z) :
  (∀ results,
     validate_loop (validators self) step_output [] = inr results →
     Forall2 (λ v b, v step_output = inr b) (validators self) results)
  ∧ (validate self step_output step_num = inr true
     ↔ ∀ v, v ∈ validators self → v step_output = inr true)
  ∧ (∀ vs w hp x,
       Chain_call toolloop contents no_kwargs w hp (set_validators self vs) x
       = match Chain_call toolloop contents no_kwargs w hp self x with
         | (w', hp', self', r) => (w', hp', set_validators self' vs, r)
         end).
Proof.
  split; [|split].
  - intros results (bs & -> & Hbs)%validate_loop_inr. done.
  - unfold validate.
    destruct (validate_loop (validators self) step_output [])
      as [e|results] eqn:Hloop.
    + split; [done|]. intros Hall. apply all_answer in Hall.
      assert (Hr : validate_loop (validators self) step_output []
                   = inr (replicate (length (validators self)) true))
        by (apply validate_loop_inr; eauto).
      congruence.
    + apply validate_loop_inr in Hloop as (bs & -> & Hbs). simpl.
      rewrite <-(py_all_true _ _ _ Hbs). split; [by intros [= ->]|].
      by intros ->.
  - intros vs w hp x. unfold Chain_call. simpl.
    by destruct (loop w hp (agents self) (steps self) x) as [[[? ?] ?] ?].
Qed.

End Chains.

(** ** The XML extractor *)

Section Strings.

Local Arguments String.append !_ _ / : simpl nomatch.

Lemma append_assoc (a b c : string) : (a +:+ b) +:+ c = a +:+ b +:+ c.
Proof. induction a as [|x a IH]; simpl; [done|]. by f_equal. Qed.


Lemma length_append (a b : string) :
  String.length (a +:+ b) = (String.length a + String.length b)%nat.
Proof. induction a as [|x a IH]; simpl; [done|]. by f_equal. Qed.

Lemma substring_prefix (a b : string) :
  substring 0 (String.length a) (a +:+ b) = a.
Proof.
  induction a as [|x a IH]; simpl; [by destruct b|]. by f_equal.
Qed.

Lemma consumed_append (a b : string) : Re.consumed (a +:+ b) b = a.
Proof.
  unfold Re.consumed. rewrite length_append.
  replace (String.length a + String.length b - String.length b)%nat
    with (String.length a) by lia.
  apply substring_prefix.
Qed.

Lemma strip_prefix_append (p rest : string) :
  Re.strip_prefix p (p +:+ rest) = Some rest.
Proof.
  induction p as [|x p IH]; simpl; [done|]. by rewrite Ascii.eqb_refl.
Qed.

(** *** Stripping *)

Lemma rstrip_empty (s : string) :
  Re.rstrip s = "" ↔ all_chars Re.isspace s = true.
Proof.
  induction s as [|x s IH]; simpl; [done|].
  destruct (Re.rstrip s) as [|y t] eqn:Hr.
  - destruct (Re.isspace x); simpl; [tauto|]. split; done.
  - split; [done|]. intros [_ Hs]%andb_true_iff. by apply IH in Hs.
Qed.

Lemma rstrip_cons (x : ascii) (s : string) :
  all_chars Re.isspace (String x s) = false →
  Re.rstrip (String x s) = String x (Re.rstrip s).
Proof.
  simpl. intros Hns. destruct (Re.rstrip s) as [|y t] eqn:Hr; [|done].
  apply rstrip_empty in Hr. rewrite Hr, andb_true_r in Hns.
  by rewrite Hns.
Qed.

Lemma rstrip_idemp (s : string) : Re.rstrip (Re.rstrip s) = Re.rstrip s.
Proof.
  induction s as [|x s IH]; [done|].
  destruct (all_chars Re.isspace (String x s)) eqn:Hs.
  - by rewrite (proj2 (rstrip_empty _) Hs).
  - rewrite (rstrip_cons _ _ Hs).
    destruct (all_chars Re.isspace (String x (Re.rstrip s))) eqn:Hs'.
    + exfalso. simpl in Hs, Hs'.
      apply andb_true_iff in Hs' as [Hx Hr]. rewrite Hx in Hs. simpl in Hs.
      apply rstrip_empty in Hr. rewrite IH in Hr.
      apply rstrip_empty in Hr. congruence.
    + by rewrite (rstrip_cons _ _ Hs'), IH.
Qed.

Lemma lstrip_rstrip (s : string) :
  Re.lstrip (Re.rstrip (Re.lstrip s)) = Re.rstrip (Re.lstrip s).
Proof.
  induction s as [|x s IH]; [done|]. simpl.
  destruct (Re.isspace x) eqn:Hx; [done|].
  rewrite rstrip_cons by (simpl; by rewrite Hx). simpl. by rewrite Hx.
Qed.

Lemma strip_idemp (s : string) : Re.strip (Re.strip s) = Re.strip s.
Proof. unfold Re.strip. by rewrite lstrip_rstrip, rstrip_idemp. Qed.

End Strings.

Section Extract.

Local Arguments String.append !_ _ / : simpl nomatch.

Variable tag : string.
Variable rest : string.

(** The end of a match: group 1 is the result. *)
Local Abbreviation finish := (λ (_ : string) (g : option string), Some g).
(** The text from the closing tag on. *)
Local Abbreviation tail := (close_tag tag +:+ rest).

Implicit Types (s body ws : string) (g : option string) (x : ascii).


Lemma isspace_not_open x : Re.isspace x = true → Ascii.eqb "<" x = false.
Proof. destruct (Ascii.eqb_spec "<" x) as [<-|]; [|done]. by vm_compute. Qed.

Lemma isspace_not_bracket x : Re.isspace x = true → Ascii.eqb "]" x = false.
Proof. destruct (Ascii.eqb_spec "]" x) as [<-|]; [|done]. by vm_compute. Qed.



(** *** The closing part of the pattern *)

Lemma star_cons {R} cls x s (k : string → option R) :
  Re.star cls (String x s) k
  = if cls x then Re.orelse (Re.star cls s k) (k (String x s))
    else k (String x s).
Proof. done. Qed.

(** [\s*] reads nothing at a closing tag. *)
Lemma star_at_tail {R} (k : string → option R) :
  Re.star Re.isspace tail k = k tail.
Proof. done. Qed.


(** After white space only, [\s*</tag>] matches. *)
Lemma star_closes ws g :
  all_chars Re.isspace ws = true →
  Re.star Re.isspace (ws +:+ tail)
    (λ r, Re.exec (Re.Lit (close_tag tag)) r g finish)
  = Some g.
Proof.
  induction ws as [|x ws IH].
  - intros _. change ("" +:+ tail) with tail. rewrite star_at_tail.
    cbn [Re.exec]. by rewrite strip_prefix_append.
  - intros [Hx Hws]%andb_true_iff.
    change (String x ws +:+ tail) with (String x (ws +:+ tail)).
    by rewrite star_cons, Hx, (IH Hws).
Qed.

Lemma closing_matches ws g :
  all_chars Re.isspace ws = true →
  Re.exec (closing tag) (ws +:+ tail) g finish = Some g.
Proof.
  intros Hws. unfold closing. cbn [Re.exec].
  assert (Re.strip_prefix "]]>" (ws +:+ tail) = None) as ->.
  { destruct ws as [|x ws]; [done|].
    apply andb_true_iff in Hws as [Hx _].
    cbn [Re.strip_prefix String.append].
    by rewrite (isspace_not_bracket _ Hx). }
  cbn [Re.orelse]. by apply star_closes.
Qed.



(** *** The group *)



(** *** The leading white space and the opening tag *)




Lemma search_cons r x s :
  Re.search r (String x s)
  = match Re.exec r (String x s) None finish with
    | Some g => Some g
    | None => Re.search r s
    end.
Proof. done. Qed.





(** *** The same with a CDATA section *)

Variable ws2 : string.
Hypothesis ws2_space : all_chars Re.isspace ws2 = true.

(** The text from the end of the CDATA section on. *)
Local Abbreviation cdata_end := ("]]>" +:+ ws2 +:+ tail).








End Extract.

(** *** Group 1 takes part in every match *)

Section Groups.

Context {R : Type}.
Implicit Types (r : Re.regex) (s : string) (g : option string) (Q : R → Prop).

Lemma star_post Q cls s (k : string → option R) v :
  (∀ rest v, k rest = Some v → Q v) → Re.star cls s k = Some v → Q v.
Proof.
  intros Hk. induction s as [|x s IH]; simpl; [by apply Hk|].
  destruct (cls x); [|by apply Hk].
  destruct (Re.star cls s k) as [v'|] eqn:Hs; simpl.
  - intros [= <-]. by apply IH.
  - by apply Hk.
Qed.

Lemma lazy_star_post Q cls s (k : string → option R) v :
  (∀ rest v, k rest = Some v → Q v) → Re.lazy_star cls s k = Some v → Q v.
Proof.
  intros Hk. induction s as [|x s IH]; simpl.
  - destruct (k "") as [v'|] eqn:Hs; simpl; [|done].
    intros [= <-]. by eapply Hk.
  - destruct (k (String x s)) as [v'|] eqn:Hs; simpl.
    + intros [= <-]. by eapply Hk.
    + destruct (cls x); [apply IH|done].
Qed.

(** A property [I] of group 1 that every closed group has is kept up to
    the continuation. *)
Lemma exec_post (I : option string → Prop) Q r :
  (∀ t, I (Some t)) →
  ∀ s g (k : string → option string → option R) v,
    I g →
    (∀ rest g' v, I g' → k rest g' = Some v → Q v) →
    Re.exec r s g k = Some v → Q v.
Proof.
  intros HI. induction r as [p|cls|cls|r IH|r IH|r1 IH1 r2 IH2];
    intros s g k v Hg Hk; simpl.
  - destruct (Re.strip_prefix p s); [by apply Hk|done].
  - apply star_post. intros rest v'. by apply Hk.
  - apply lazy_star_post. intros rest v'. by apply Hk.
  - destruct (Re.exec r s g k) as [v'|] eqn:Hr; simpl.
    + intros [= <-]. by eapply IH.
    + by apply Hk.
  - apply IH; [done|]. intros rest g' v' _. by apply Hk.
  - apply IH1; [done|]. intros rest g' v' Hg'. by apply IH2.
Qed.

Lemma exec_groups Q r :
  Re.groups_always r = true →
  ∀ s g (k : string → option string → option R) v,
    (∀ rest g' v, is_Some g' → k rest g' = Some v → Q v) →
    Re.exec r s g k = Some v → Q v.
Proof.
  induction r as [p|cls|cls|r IH|r IH|r1 IH1 r2 IH2];
    simpl; try done; intros Hgr s g k v Hk.
  - apply (exec_post (λ _, True)); [done..|].
    intros rest g' v' _. by apply Hk.
  - destruct (Re.groups_always r1) eqn:H1.
    + apply IH1; [done|]. intros rest g' v' Hg'.
      by apply (exec_post is_Some).
    + apply (exec_post (λ _, True)); [done..|].
      intros rest g' v' _. by apply IH2.
Qed.

End Groups.

Lemma search_groups (r : Re.regex) (s : string) (g : option string) :
  Re.groups_always r = true → Re.search r s = Some g → is_Some g.
Proof.
  intros Hr. induction s as [|x s IH]; simpl.
  - destruct (Re.exec r "" None _) as [g'|] eqn:He; [|done].
    intros [= ->]. revert He. apply exec_groups; [done|].
    by intros _ g' v Hg' [= <-].
  - destruct (Re.exec r (String x s) None _) as [g'|] eqn:He; [|done].
    intros [= ->]. revert He. apply exec_groups; [done|].
    by intros _ g' v Hg' [= <-].
Qed.

Lemma search_pattern_group (tag text : string) (g : option string) :
  Re.search (pattern tag) text = Some g → is_Some g.
Proof. by apply search_groups. Qed.


(** ** Concrete runs with the small client *)

Module Runs.
Import Demo.

(** Four stored messages and [memory_size = 1]: the trim keeps the
    system message and the last other message. *)
Lemma prune_history_spec_run :
  let self := writer (Some 1) [usr "a"; sys "s"; bot "b"; usr "c"] in
  memory_size self = Some 1 ∧ 0 < 1
  ∧ 1 + 1 < Z.of_nat (length [usr "a"; sys "s"; bot "b"; usr "c"])
  ∧ _prune_history self = writer (Some 1) [sys "s"; usr "c"].
Proof.
  intros self. split; [done|]. split; [lia|]. split; [simpl; lia|].
  destruct (prune_history_spec self) as [_ Hpos].
  destruct (Hpos 1 [usr "a"; sys "s"; bot "b"; usr "c"]
              eq_refl ltac:(lia) eq_refl) as [Hfires _].
  destruct Hfires as [-> _]; [simpl; lia|]. reflexivity.
Defined.

(** The same agent runs a turn: the client is given the trimmed history
    and its two new messages stay in the history. *)
Lemma run_with_tools_trims_before_client_run :
  let self := writer (Some 1) [usr "a"; sys "s"; bot "b"; usr "c"] in
  memory_size self = Some 1 ∧ 0 < 1
  ∧ h (chat self) = Some [usr "a"; sys "s"; bot "b"; usr "c"]
  ∧ ∃ sent,
      filter is_system sent = [sys "s"]
      ∧ Z.of_nat (non_system_count sent) ≤ 1 + 1.
Proof.
  intros self. split; [done|]. split; [lia|]. split; [done|].
  destruct (run_with_tools_trims_before_client toolloop contents self 1
              [usr "a"; sys "s"; bot "b"; usr "c"] tt "d" 5 tt
              eq_refl ltac:(lia) eq_refl)
    as (sent & _ & Hsys & Hcount & _).
  exists sent. split; [exact Hsys|exact Hcount].
Defined.

(** C1 fails after a turn.  With [memory_size = 1] and an empty history
    one turn leaves two non-system messages; and with [memory_size = 5]
    a system message stored after a user message stays where it is. *)
Lemma history_after_turn_exceeds_memory_size :
  (∃ a after,
     run_with_tools tt (writer (Some 1) []) "hi" 5 tt = (tt, a, inr "[hi]")
     ∧ h (chat a) = Some after
     ∧ ¬ (Z.of_nat (non_system_count after) ≤ 1))
  ∧ (∃ a after,
     run_with_tools tt (writer (Some 5) [usr "a"; sys "s"]) "hi" 5 tt
       = (tt, a, inr "[hi]")
     ∧ h (chat a) = Some after
     ∧ ¬ system_first after).
Proof.
  split.
  - eexists _, _. split; [reflexivity|]. split; [reflexivity|].
    vm_compute. intros Hle. by apply Hle.
  - eexists _, _. split; [reflexivity|]. split; [reflexivity|].
    apply (bool_decide_unpack _). by vm_compute.
Qed.

(** A registered and an unregistered model, and a registered model with
    a client that cannot open its session. *)
Lemma Agent_init_checks_model_run :
  ("bad-model" ∉ models) ∧ ("gpt-4o" ∈ models)
  ∧ Agent_init tt "writer" "bad-model" [] None (Some 10)
    = (tt, inl (ValueError
         "Model bad-model not in available models: ['gpt-4o', 'offline']"))
  ∧ Agent_init tt "writer" "gpt-4o" [] None (Some 10)
    = (tt, inr (writer (Some 10) []))
  ∧ Samples.Agent_init_no_key tt "writer" "gpt-4o" [] None (Some 10)
    = (tt, inl (mkExn "OpenAIError" "The api_key client option must be set")).
Proof.
  assert (Hbad : "bad-model" ∉ models)
    by (apply (bool_decide_unpack _); by vm_compute).
  assert (Hgood : "gpt-4o" ∈ models) by (by left).
  split; [exact Hbad|]. split; [exact Hgood|].
  destruct (Agent_init_checks_model models models_str Chat_new
              tt "writer" "bad-model" [] None (Some 10)) as [Hraise _].
  destruct (Agent_init_checks_model models models_str Chat_new
              tt "writer" "gpt-4o" [] None (Some 10)) as [_ Hreg].
  destruct (Agent_init_checks_model models models_str Samples.Chat_new_no_key
              tt "writer" "gpt-4o" [] None (Some 10)) as [_ Hreg'].
  destruct (Hreg Hgood) as [Hbuilt _]. destruct (Hreg' Hgood) as [_ Hfails].
  split; [exact (Hraise Hbad)|]. split; [exact (Hbuilt tt _ eq_refl)|].
  exact (Hfails tt _ eq_refl).
Defined.

(** C6 fails for a registered model: the model is in the registry and the
    construction raises, because the client's [Chat(model, tools=...)]
    does. *)
Lemma Agent_init_registered_model_raises :
  ("gpt-4o" ∈ models)
  ∧ Samples.Agent_init_no_key tt "writer" "gpt-4o" [] None (Some 10)
    = (tt, inl (mkExn "OpenAIError" "The api_key client option must be set"))
  ∧ ¬ ∃ a, Samples.Agent_init_no_key tt "writer" "gpt-4o" [] None (Some 10)
           = (tt, inr a).
Proof.
  split; [by left|]. split; [reflexivity|]. intros [a Ha]. discriminate Ha.
Qed.

(** [Agent("writer", "gpt-4o", system="")] *)
Lemma Agent_init_falsy_system_run :
  ("gpt-4o" ∈ models)
  ∧ ∃ a, Agent_init tt "writer" "gpt-4o" [] (Some "") (Some 10)
         = (tt, inr a)
         ∧ sp (chat a) = "You are a writer.".
Proof.
  assert (Hgood : "gpt-4o" ∈ models) by (by left).
  split; [exact Hgood|].
  destruct (Agent_init_falsy_system models models_str Chat_new
              tt "writer" "gpt-4o" [] (Some 10) tt _ Hgood eq_refl)
    as [Hfalsy _].
  exact (Hfalsy (Some "") (or_intror eq_refl)).
Defined.

(** The same agent listed twice: two steps, the second on the output of
    the first. *)
Lemma Chain_call_trace_run :
  let self := set_agents (Chain_new "twice") [0%nat; 0%nat] in
  let out := Chain_call tt heap self "hi" in
  agents self ≠ [] ∧ steps self = [] ∧ out.2 = inr "[[hi]]"
  ∧ length (steps out.1.2) = 2%nat.
Proof.
  intros self out. split; [done|]. split; [done|]. split; [done|].
  destruct (Chain_call_trace toolloop contents tt tt heap self "hi"
              out.1.1.1 out.1.1.2 out.1.2 "[[hi]]"
              ltac:(done) eq_refl eq_refl) as [Hlen _].
  exact Hlen.
Defined.

Lemma Chain_call_empty_run :
  agents (Chain_new "empty") = []
  ∧ Chain_call tt heap (Chain_new "empty") "hi"
    = (tt, heap, Chain_new "empty", inr "hi").
Proof.
  split; [done|].
  exact (Chain_call_empty toolloop contents tt tt heap (Chain_new "empty")
           "hi" eq_refl).
Defined.

(** The writer answers, the translator is offline. *)
Lemma Chain_call_second_raises_run :
  let self := set_agents (Chain_new "product_translator") [0%nat; 1%nat] in
  agents self = [0%nat; 1%nat]
  ∧ ∃ self',
      (Chain_call tt heap self "hi").1.2 = self'
      ∧ (Chain_call tt heap self "hi").2
        = inl (mkExn "APIConnectionError" "Connection error.")
      ∧ steps self' = [mkStep 0 "hi" "[hi]"].
Proof.
  intros self. split; [done|].
  destruct (Chain_call_second_raises toolloop contents tt tt heap self "hi"
              0%nat 1%nat tt _ "[hi]" tt _ _ eq_refl eq_refl eq_refl)
    as (self' & Hcall & _ & Hfresh).
  exists self'. unfold Chain_call. rewrite Hcall.
  split; [done|]. split; [done|]. by apply Hfresh.
Defined.

(** Two validators on two outputs. *)
Lemma validate_conjunction_run :
  let self := set_validators (Chain_new "checked") [nonempty; short] in
  (∀ v, v ∈ validators self → v "ok" = inr true)
  ∧ validate self "ok" 1 = inr true
  ∧ validate self "too long" 1 = inr false.
Proof.
  intros self.
  assert (Hall : ∀ v, v ∈ validators self → v "ok" = inr true).
  { intros v [->|[->|[]%elem_of_nil]%elem_of_cons]%elem_of_cons; done. }
  split; [exact Hall|].
  destruct (validate_conjunction toolloop contents tt self "ok" 1)
    as (_ & [_ Hval] & _).
  split; [exact (Hval Hall)|done].
Defined.


End Runs.

(** * Further properties *)

(** ** What the trim keeps *)

Section TrimKeeps.

Context {Tool : Type}.
Implicit Types (self : @Agent Tool) (hist kept : list Message) (n : Z).

Lemma trimmed_submseteq (k : nat) hist :
  filter is_system hist ++ last_n k (filter non_system hist) ⊆+ hist.
Proof.
  etrans; [|apply Permutation_submseteq, (filter_app_complement is_system)].
  apply submseteq_skips_l, sublist_submseteq, last_n_sublist.
Qed.

(** The history after a trim, case by case. *)
Lemma prune_history_cases self hist :
  h (chat self) = Some hist →
  _prune_history self = self
  ∨ ∃ n, memory_size self = Some n ∧ 0 < n
         ∧ n + 1 < Z.of_nat (length hist)
         ∧ _prune_history self
           = set_chat self (set_h (chat self)
               (filter is_system hist
                ++ last_n (Z.to_nat n) (filter non_system hist))).
Proof.
  intros Hh. destruct (memory_size self) as [n|] eqn:Hm;
    [|left; apply prune_history_off; auto].
  destruct (Z.le_gt_cases n 0) as [Hn|Hn];
    [left; apply prune_history_off; eauto|].
  destruct (Z.le_gt_cases (Z.of_nat (length hist)) (n + 1)) as [Hlen|Hlen];
    [left; by eapply prune_history_keeps|].
  right. exists n. repeat split; [lia..|].
  apply prune_history_fires; (done || lia).
Qed.

Lemma prune_history_config self : same_config (_prune_history self) self.
Proof.
  unfold _prune_history. destruct (memory_size self) as [n|] eqn:Hm;
    [|by repeat split].
  destruct (n <=? 0); [by repeat split|].
  destruct (h (chat self)); [|by repeat split].
  destruct (_ >? _); by repeat split.
Qed.

(** X2: The trim only drops messages.  It leaves the configuration of the
    agent and the model, tools and system prompt of the chat as they are,
    and the history it leaves holds no message more often than the stored
    one did. *)
Theorem prune_history_only_drops self :
  role (_prune_history self) = role self
  ∧ model (_prune_history self) = model self
  ∧ tools (_prune_history self) = tools self
  ∧ system (_prune_history self) = system self
  ∧ memory_size (_prune_history self) = memory_size self
  ∧ chat_model (chat (_prune_history self)) = chat_model (chat self)
  ∧ chat_tools (chat (_prune_history self)) = chat_tools (chat self)
  ∧ sp (chat (_prune_history self)) = sp (chat self)
  ∧ match h (chat self) with
    | Some hist =>
        ∃ kept, h (chat (_prune_history self)) = Some kept ∧ kept ⊆+ hist
    | None => h (chat (_prune_history self)) = None
    end.
Proof.
  destruct (h (chat self)) as [hist|] eqn:Hh.
  - destruct (prune_history_cases self hist Hh)
      as [->|(n & _ & _ & _ & ->)].
    + repeat split; try done. rewrite Hh. by exists hist.
    + repeat split; try done. simpl. eexists. split; [done|].
      apply trimmed_submseteq.
  - rewrite (prune_history_no_h self Hh). by rewrite Hh.
Qed.

(** X3: When the system messages of the stored history already stand first
    (so also when there is none), the trim keeps the order of the
    messages: what is left is a subsequence of the stored history. *)
Theorem prune_history_keeps_order self hist :
  h (chat self) = Some hist → system_first hist →
  ∃ kept, h (chat (_prune_history self)) = Some kept
          ∧ kept `sublist_of` hist.
Proof.
  intros Hh Hfirst.
  destruct (prune_history_cases self hist Hh) as [->|(n & _ & _ & _ & ->)].
  - by exists hist.
  - simpl. eexists. split; [done|].
    assert (Hsub : filter is_system hist
                   ++ last_n (Z.to_nat n) (filter non_system hist)
                   `sublist_of`
                   filter is_system hist ++ filter non_system hist)
      by (apply sublist_app; [done|apply last_n_sublist]).
    unfold system_first in Hfirst. by rewrite <-Hfirst in Hsub.
Qed.

Lemma last_last_n {A : Type} (k : nat) (l : list A) :
  (0 < k)%nat → last (last_n k l) = last l.
Proof.
  intros Hk. rewrite last_n_drop. destruct l as [|x l]; [done|].
  rewrite !last_lookup, lookup_drop, length_drop. f_equal. simpl. lia.
Qed.

(** X4: The newest message of the stored history, when it is not a system
    message, is still the newest message after the trim. *)
Theorem prune_history_keeps_newest self hist (m : Message) :
  h (chat self) = Some hist → last hist = Some m →
  msg_role m ≠ "system" →
  ∃ kept, h (chat (_prune_history self)) = Some kept ∧ last kept = Some m.
Proof.
  intros Hh Hlast Hm.
  destruct (prune_history_cases self hist Hh) as [->|(n & _ & Hn & _ & ->)].
  - by exists hist.
  - simpl. eexists. split; [done|].
    apply last_Some in Hlast as [hist' ->].
    rewrite (filter_app non_system),
      (filter_cons_True non_system), filter_nil by done.
    rewrite last_app, last_last_n by lia. by rewrite last_snoc.
Qed.

End TrimKeeps.

(** ** Turns and the growth of the history *)

Section TurnGrowth.

Context {Tool Kwargs Response World : Type}.
Variable toolloop :
  World → @Chat Tool → string → Z → Kwargs
  → World * @Chat Tool * Result Response.
Variable contents : Response → string.

Implicit Types (self : @Agent Tool) (hist : list Message) (n : Z).

Lemma run_with_tools_off
    self (w : World) (prompt : string) (max_steps : Z) (kwargs : Kwargs) :
  memory_size self = None ∨ (∃ n, memory_size self = Some n ∧ n ≤ 0) →
  run_with_tools toolloop contents w self prompt max_steps kwargs
  = match toolloop w (chat self) prompt max_steps kwargs with
    | (w', c', r) => (w', set_chat self c', sum_map id contents r)
    end.
Proof.
  intros Hoff. unfold run_with_tools. rewrite (prune_history_off self Hoff).
  by destruct (toolloop w (chat self) prompt max_steps kwargs)
    as [[w' c'] [e|resp]].
Qed.

(** X1: With [memory_size] unset or at most 0 a turn hands the whole stored
    chat to the client, untrimmed; so in a turn in which the client only
    appends to the history it is given, the history after the turn is the
    stored history followed by what the client appended: nothing is
    dropped, whether the turn returns or raises. *)
Theorem run_with_tools_untrimmed
    self (w : World) (prompt : string) (max_steps : Z) (kwargs : Kwargs) :
  memory_size self = None ∨ (∃ n, memory_size self = Some n ∧ n ≤ 0) →
  run_with_tools toolloop contents w self prompt max_steps kwargs
  = match toolloop w (chat self) prompt max_steps kwargs with
    | (w', c', r) => (w', set_chat self c', sum_map id contents r)
    end
  ∧ (∀ hist app,
       h (chat self) = Some hist →
       h (toolloop w (chat self) prompt max_steps kwargs).1.2
       = Some (hist ++ app) →
       h (chat (run_with_tools toolloop contents w self prompt max_steps
                  kwargs).1.2)
       = Some (hist ++ app)).
Proof.
  intros Hoff. split; [by apply run_with_tools_off|].
  intros hist app Hh Happ. rewrite (run_with_tools_off _ _ _ _ _ Hoff).
  by destruct (toolloop w (chat self) prompt max_steps kwargs)
    as [[w' c'] r].
Qed.

Lemma non_system_count_app (l1 l2 : list Message) :
  non_system_count (l1 ++ l2)
  = (non_system_count l1 + non_system_count l2)%nat.
Proof. unfold non_system_count. by rewrite filter_app, length_app. Qed.

(** X5: A turn in which the client only appends to the history it is given,
    [app] with at most [k] messages that are not system messages: after
    the turn, whatever was stored before, the history holds at most
    [memory_size + 1 + k] such messages, and every system message that was
    stored. *)
Theorem run_with_tools_bounded_growth
    self n hist (app : list Message) (k : nat) (w : World)
    (prompt : string) (max_steps : Z) (kwargs : Kwargs) :
  memory_size self = Some n → 0 < n → h (chat self) = Some hist →
  h (toolloop w (chat (_prune_history self)) prompt max_steps kwargs).1.2
  = (.++ app) <$> h (chat (_prune_history self)) →
  (non_system_count app ≤ k)%nat →
  ∃ after,
    h (chat (run_with_tools toolloop contents w self prompt max_steps
               kwargs).1.2) = Some after
    ∧ Z.of_nat (non_system_count after) ≤ n + 1 + Z.of_nat k
    ∧ filter is_system hist `prefix_of` filter is_system after.
Proof.
  intros Hm Hn Hh Hafter Hk.
  destruct (prune_history_sent self n hist Hm Hn Hh)
    as (sent & Hc & Hsys & Hcount & _).
  exists (sent ++ app). unfold run_with_tools.
  destruct (toolloop w (chat (_prune_history self)) prompt max_steps kwargs)
    as [[w' c'] r]. simpl in Hafter.
  rewrite Hc in Hafter. simpl in Hafter. split; [by destruct r|].
  rewrite non_system_count_app, filter_app, Hsys. split; [lia|].
  by apply prefix_app_r.
Qed.

End TurnGrowth.

(** ** More on chains *)

Section ChainsMore.

Context {Tool Kwargs Response World : Type}.
Variable toolloop :
  World → @Chat Tool → string → Z → Kwargs
  → World * @Chat Tool * Result Response.
Variable contents : Response → string.
Variable no_kwargs : Kwargs.

Local Abbreviation turn := (run_with_tools toolloop contents).
Local Abbreviation loop := (call_loop toolloop contents no_kwargs).

Implicit Types (self : Chain) (hp : @Heap Tool) (w : World)
               (trace : list Step) (x : string) (todo : list nat).

Lemma same_config_refl (a : @Agent Tool) : same_config a a.
Proof. by repeat split. Qed.

Lemma same_config_trans (a b c : @Agent Tool) :
  same_config a b → same_config b c → same_config a c.
Proof.
  unfold same_config. intros (?&?&?&?&?) (?&?&?&?&?).
  repeat split; congruence.
Qed.

(** A turn changes the chat of the agent only. *)
Lemma run_with_tools_config w (a : @Agent Tool) x ms kw :
  same_config (turn w a x ms kw).1.2 a.
Proof.
  unfold run_with_tools.
  destruct (prune_history_config a) as (Hr & Hmo & Ht & Hs & Hms).
  destruct (toolloop w (chat (_prune_history a)) x ms kw) as [[w' c'] [e|r]];
    by repeat split.
Qed.

Lemma call_loop_cons w hp a todo trace x :
  loop w hp (a :: todo) trace x
  = match turn w (hp a) x 5 no_kwargs with
    | (w', a', inl e) => (w', heap_set hp a a', trace, inl e)
    | (w', a', inr out) =>
        loop w' (heap_set hp a a') todo (trace ++ [mkStep a x out]) out
    end.
Proof. done. Qed.

(** A loop that raises has appended one linked step per turn that
    returned, for the agents before the one that raised. *)
Lemma call_loop_raises w hp todo trace x w' hp' trace' (e : Exn) :
  loop w hp todo trace x = (w', hp', trace', inl e) →
  ∃ new y, trace' = trace ++ new
           ∧ (length new < length todo)%nat
           ∧ step_agent <$> new = take (length new) todo
           ∧ linked x new y.
Proof.
  revert w hp trace x. induction todo as [|a todo IH]; intros w hp trace x;
    [done|].
  rewrite call_loop_cons.
  destruct (turn w (hp a) x 5 no_kwargs) as [[w1 a1] [e1|out]].
  - intros [= <- <- <- <-]. exists [], x. rewrite app_nil_r. simpl.
    repeat split; try done; lia.
  - intros Hloop. apply IH in Hloop as (new & y & -> & Hlen & Hag & Hl).
    exists (mkStep a x out :: new), y.
    split; [by rewrite <-app_assoc|]. split; [simpl; lia|]. split; [|done].
    rewrite fmap_cons. cbn [length take step_agent]. by f_equal.
Qed.

Lemma call_loop_app w hp (l1 l2 : list nat) trace x :
  loop w hp (l1 ++ l2) trace x
  = match loop w hp l1 trace x with
    | (w1, hp1, trace1, inr y) => loop w1 hp1 l2 trace1 y
    | (w1, hp1, trace1, inl e) => (w1, hp1, trace1, inl e)
    end.
Proof.
  revert w hp trace x. induction l1 as [|a l1 IH]; intros w hp trace x;
    [done|].
  rewrite <-app_comm_cons, !call_loop_cons.
  destruct (turn w (hp a) x 5 no_kwargs) as [[w1 a1] [e1|out]]; [done|].
  apply IH.
Qed.

Lemma call_loop_heap w hp todo trace x (r : nat) :
  same_config ((loop w hp todo trace x).1.1.2 r) (hp r)
  ∧ (r ∉ todo → (loop w hp todo trace x).1.1.2 r = hp r).
Proof.
  revert w hp trace x. induction todo as [|a todo IH]; intros w hp trace x.
  { split; [apply same_config_refl|done]. }
  rewrite call_loop_cons.
  pose proof (run_with_tools_config w (hp a) x 5 no_kwargs) as Hcfg.
  destruct (turn w (hp a) x 5 no_kwargs) as [[w1 a1] [e1|out]];
    simpl in Hcfg.
  - simpl. unfold heap_set. split.
    + case_decide; [by subst|apply same_config_refl].
    + intros Hr. case_decide; [|done]. subst.
      by apply not_elem_of_cons in Hr as [? _].
  - destruct (IH w1 (heap_set hp a a1) (trace ++ [mkStep a x out]) out)
      as [Hc Hf].
    split.
    + eapply same_config_trans; [exact Hc|].
      unfold heap_set. case_decide; [by subst|apply same_config_refl].
    + intros [Hra Hr]%not_elem_of_cons. rewrite (Hf Hr).
      unfold heap_set. by case_decide.
Qed.

(** X6: A call only appends to [steps]: whether it returns or raises, the
    steps recorded before come first afterwards, and the other fields of
    the chain are as before. *)
Theorem Chain_call_appends w hp self x :
  let self' := (Chain_call toolloop contents no_kwargs w hp self x).1.2 in
  steps self `prefix_of` steps self'
  ∧ name self' = name self ∧ agents self' = agents self
  ∧ input_type self' = input_type self ∧ output_type self' = output_type self
  ∧ validators self' = validators self ∧ history self' = history self.
Proof.
  unfold Chain_call.
  destruct (loop w hp (agents self) (steps self) x)
    as [[[w1 hp1] trace1] [e|r]] eqn:Hloop; simpl.
  - apply call_loop_raises in Hloop as (new & y & -> & _).
    repeat split. by apply prefix_app_r.
  - apply call_loop_returns in Hloop as (new & -> & _).
    repeat split. by apply prefix_app_r.
Qed.


(** X8: A call that returns, on a chain with or without steps from earlier
    calls, appends one step per agent, named after the agents in their
    order and linked from the input to the value returned. *)
Theorem Chain_call_returns_trace w hp self x w' hp' self' (r : string) :
  Chain_call toolloop contents no_kwargs w hp self x
  = (w', hp', self', inr r) →
  ∃ new,
    steps self' = steps self ++ new
    ∧ step_agent <$> new = agents self
    ∧ linked x new r.
Proof.
  unfold Chain_call.
  destruct (loop w hp (agents self) (steps self) x)
    as [[[w1 hp1] trace1] r1] eqn:Hloop.
  intros [= -> -> <- ->].
  by apply (call_loop_returns toolloop contents no_kwargs) in Hloop.
Qed.

(** X9: A chain over [l1 ++ l2] is the chain over [l1] followed, when it
    returns, by the chain over [l2] on the value returned, with the steps
    of both. *)
Theorem Chain_call_app w hp self (l1 l2 : list nat) x :
  Chain_call toolloop contents no_kwargs w hp (set_agents self (l1 ++ l2)) x
  = match Chain_call toolloop contents no_kwargs w hp (set_agents self l1) x
    with
    | (w1, hp1, self1, inr y) =>
        match Chain_call toolloop contents no_kwargs w1 hp1
                (set_agents self1 l2) y with
        | (w2, hp2, self2, r) => (w2, hp2, set_agents self2 (l1 ++ l2), r)
        end
    | (w1, hp1, self1, inl e) =>
        (w1, hp1, set_agents self1 (l1 ++ l2), inl e)
    end.
Proof.
  unfold Chain_call. simpl. rewrite call_loop_app.
  destruct (loop w hp l1 (steps self) x) as [[[w1 hp1] trace1] [e|y]];
    [done|]. simpl.
  by destruct (loop w1 hp1 l2 trace1 y) as [[[w2 hp2] trace2] r].
Qed.

(** X10: A call changes the chats of the agents it lists and nothing else:
    every agent keeps its configuration, and an agent the chain does not
    list is left as it was. *)
Theorem Chain_call_frame w hp self x (r : nat) :
  let hp' := (Chain_call toolloop contents no_kwargs w hp self x).1.1.2 in
  same_config (hp' r) (hp r) ∧ (r ∉ agents self → hp' r = hp r).
Proof.
  pose proof (call_loop_heap w hp (agents self) (steps self) x r) as Hheap.
  unfold Chain_call.
  by destruct (loop w hp (agents self) (steps self) x) as [[[w1 hp1] t1] r1].
Qed.

End ChainsMore.

(** ** The outcomes of [validate] *)

Section Validators.

Implicit Types (vs : list Validator) (out : string).

Lemma validate_loop_inl vs out (acc : list bool) (e : Exn) :
  validate_loop vs out acc = inl e
  ↔ ∃ vs1 v vs2, vs = vs1 ++ v :: vs2
                 ∧ Forall (λ u, ∃ b, u out = inr b) vs1
                 ∧ v out = inl e.
Proof.
  revert acc. induction vs as [|v vs IH]; intros acc; simpl.
  - split; [done|]. intros (vs1 & u & vs2 & Hvs & _). by destruct vs1.
  - destruct (v out) as [e'|b] eqn:Hv.
    + split.
      * intros [= ->]. by exists [], v, vs.
      * intros ([|u vs1] & u' & vs2 & [= <- Hvs] & Hall & Hu'); [congruence|].
        apply Forall_cons in Hall as [[b Hb] _]. congruence.
    + rewrite IH. split.
      * intros (vs1 & u & vs2 & -> & Hall & Hu).
        exists (v :: vs1), u, vs2. split; [done|]. split; [|done].
        constructor; [by exists b|done].
      * intros ([|u vs1] & u' & vs2 & [= <- Hvs] & Hall & Hu'); [congruence|].
        apply Forall_cons in Hall as [_ Hall]. by exists vs1, u', vs2.
Qed.

Lemma answers_Forall2 vs out :
  Forall (λ v, ∃ b, v out = inr b) vs
  ↔ ∃ bs, Forall2 (λ v (b : bool), v out = inr b) vs bs.
Proof.
  split.
  - induction 1 as [|v vs [b Hb] _ [bs IH]]; [by exists []|].
    exists (b :: bs). by constructor.
  - intros [bs Hbs]. induction Hbs as [|v b vs bs Hv _ IH]; [done|].
    constructor; [by exists b|done].
Qed.

Lemma py_all_false vs out (bs : list bool) :
  Forall2 (λ v (b : bool), v out = inr b) vs bs →
  py_all bs = false ↔ Exists (λ v, v out = inr false) vs.
Proof.
  unfold py_all. induction 1 as [|v b vs bs Hv _ IH]; simpl.
  - split; [done|]. by intros ?%Exists_nil.
  - rewrite andb_false_iff, IH, Exists_cons. unfold id.
    split; (intros [Hb|?]; [left|by right]); congruence.
Qed.

(** X11: The two other outcomes of [validate] (true is C8).  It raises [e]
    exactly when [e] is raised by the first validator that raises, whether
    or not a validator before it answered false: there is no short
    circuit.  It returns false exactly when every validator answers and
    one of them answers false. *)
Theorem validate_outcomes (self : Chain) out (step_num : Z) :
  (∀ e, validate self out step_num = inl e
        ↔ ∃ vs1 v vs2, validators self = vs1 ++ v :: vs2
                       ∧ Forall (λ u, ∃ b, u out = inr b) vs1
                       ∧ v out = inl e)
  ∧ (validate self out step_num = inr false
     ↔ Forall (λ v, ∃ b, v out = inr b) (validators self)
       ∧ Exists (λ v, v out = inr false) (validators self)).
Proof.
  unfold validate.
  destruct (validate_loop (validators self) out []) as [e'|res] eqn:Hloop.
  - split.
    + intros e. rewrite <-(validate_loop_inl _ _ []), Hloop.
      split; congruence.
    + split; [done|]. intros [[bs Hbs]%answers_Forall2 _].
      assert (validate_loop (validators self) out [] = inr bs)
        by (apply validate_loop_inr; eauto).
      congruence.
  - pose proof Hloop as (bs & -> & Hbs)%validate_loop_inr. simpl. split.
    + intros e. rewrite <-(validate_loop_inl _ _ []), Hloop.
      split; congruence.
    + rewrite <-(py_all_false _ _ _ Hbs). split.
      * intros [= Hall]. split; [|done]. apply answers_Forall2. eauto.
      * by intros [_ ->].
Qed.

End Validators.

(** ** What the extractor returns *)

Section ExtractMore.

Local Arguments String.append !_ _ / : simpl nomatch.

Local Abbreviation finish := (λ (_ : string) (g : option string), Some g).

Implicit Types (r : Re.regex) (s u rest body text tag : string)
               (g : option string).

(** X12: For a tag that has no character that is special in a pattern, the
    result has no white space at either end. *)
Theorem extract_xml_stripped text tag :
  plain_tag tag = true →
  Re.strip (extract_xml text tag) = extract_xml text tag.
Proof.
  intros _. unfold extract_xml.
  destruct (Re.search (pattern tag) text) as [[body|]|]; [|done..].
  apply strip_idemp.
Qed.

(** *** Every match found is a match *)

Lemma strip_prefix_Some (p s rest : string) :
  Re.strip_prefix p s = Some rest → s = p +:+ rest.
Proof.
  revert s. induction p as [|a p IH]; intros [|b s]; simpl; try done.
  - by intros [= ->].
  - by intros [= ->].
  - destruct (Ascii.eqb_spec a b) as [->|]; [|done].
    intros Hp. by rewrite (IH _ Hp).
Qed.

Lemma star_sound {R} cls s (k : string → option R) v :
  Re.star cls s k = Some v →
  ∃ u rest, s = u +:+ rest ∧ all_chars cls u = true ∧ k rest = Some v.
Proof.
  induction s as [|x s IH]; simpl.
  - intros Hk. by exists "", "".
  - destruct (cls x) eqn:Hx; [|intros Hk; by exists "", (String x s)].
    destruct (Re.star cls s k) as [v'|] eqn:Hs; simpl.
    + intros [= <-]. destruct (IH eq_refl) as (u & rest & -> & Hu & Hk).
      exists (String x u), rest. simpl. by rewrite Hx, Hu.
    + intros Hk. by exists "", (String x s).
Qed.

(** [.*?] stops at the first place where what follows matches. *)
Lemma lazy_star_first {R} cls s (k : string → option R) v :
  Re.lazy_star cls s k = Some v →
  ∃ u rest, s = u +:+ rest ∧ all_chars cls u = true ∧ k rest = Some v
            ∧ ∀ u1 u2, u = u1 +:+ u2 → u2 ≠ "" → k (u2 +:+ rest) = None.
Proof.
  induction s as [|x s IH]; simpl.
  - destruct (k "") as [v'|] eqn:Hk; simpl; [|done].
    intros [= <-]. exists "", "". repeat split; try done.
    intros [|? ?] [|? ?]; done.
  - destruct (k (String x s)) as [v'|] eqn:Hk; simpl.
    + intros [= <-]. exists "", (String x s). repeat split; try done.
      intros [|? ?] [|? ?]; done.
    + destruct (cls x) eqn:Hx; [|done]. intros Hs.
      destruct (IH Hs) as (u & rest & -> & Hu & Hrest & Hmin).
      exists (String x u), rest. simpl. rewrite Hx, Hu.
      repeat split; try done.
      intros [|y u1] u2; simpl.
      * by intros <- _.
      * intros [= <- ->] Hu2. by apply (Hmin u1).
Qed.

Lemma exec_sound {R} r :
  ∀ s g (k : string → option string → option R) v,
    Re.exec r s g k = Some v →
    ∃ u rest g', s = u +:+ rest ∧ matches r u g g' ∧ k rest g' = Some v.
Proof.
  induction r as [p|cls|cls|r IH|r IH|r1 IH1 r2 IH2]; intros s g k v; simpl.
  - destruct (Re.strip_prefix p s) as [rest|] eqn:Hp; [|done].
    intros Hk. exists p, rest, g. split; [by apply strip_prefix_Some|].
    split; [constructor|done].
  - intros (u & rest & -> & Hu & Hk)%star_sound.
    exists u, rest, g. split; [done|]. split; [by constructor|done].
  - intros (u & rest & -> & Hu & Hk & _)%lazy_star_first.
    exists u, rest, g. split; [done|]. split; [by constructor|done].
  - destruct (Re.exec r s g k) as [v'|] eqn:Hr; simpl.
    + intros [= <-]. apply IH in Hr as (u & rest & g' & -> & Hm & Hk).
      exists u, rest, g'. split; [done|]. split; [by constructor|done].
    + intros Hk. exists "", s, g. split; [done|]. split; [constructor|done].
  - intros (u & rest & g' & -> & Hm & Hk)%IH.
    rewrite consumed_append in Hk.
    exists u, rest, (Some u). split; [done|]. split; [|done].
    by econstructor.
  - intros (u1 & rest1 & g1 & -> & Hm1 & Hk1)%IH1.
    apply IH2 in Hk1 as (u2 & rest & g2 & -> & Hm2 & Hk).
    exists (u1 +:+ u2), rest, g2. rewrite append_assoc.
    split; [done|]. split; [by econstructor|done].
Qed.

Lemma search_sound r text g :
  Re.search r text = Some g →
  ∃ pre u post, text = pre +:+ u +:+ post ∧ matches r u None g.
Proof.
  induction text as [|x text IH]; simpl.
  - destruct (Re.exec r "" None finish) as [g'|] eqn:He; [|done].
    intros [= ->]. apply exec_sound in He as (u & post & g' & Ht & Hm & [= ->]).
    by exists "", u, post.
  - destruct (Re.exec r (String x text) None finish) as [g'|] eqn:He.
    + intros [= ->].
      apply exec_sound in He as (u & post & g' & Ht & Hm & [= ->]).
      by exists "", u, post.
    + intros (pre & u & post & -> & Hm)%IH.
      by exists (String x pre), u, post.
Qed.

(** The texts [pattern] matches. *)
Lemma matches_pattern tag u g :
  matches (pattern tag) u None g →
  ∃ ws1 cd body ce ws2,
    u = open_tag tag +:+ ws1 +:+ cd +:+ body +:+ ce +:+ ws2 +:+ close_tag tag
    ∧ g = Some body
    ∧ all_chars Re.isspace ws1 = true ∧ all_chars Re.isspace ws2 = true
    ∧ (cd = "" ∨ cd = "<![CDATA[") ∧ (ce = "" ∨ ce = "]]>").
Proof.
  unfold pattern, content, closing. intros Hm.
  repeat match goal with
  | H : matches (Re.Seq _ _) _ _ _ |- _ => inversion H; clear H; subst
  | H : matches (Re.Lit _) _ _ _ |- _ => inversion H; clear H; subst
  | H : matches (Re.Star _) _ _ _ |- _ => inversion H; clear H; subst
  | H : matches (Re.Group _) _ _ _ |- _ => inversion H; clear H; subst
  | H : matches (Re.LazyStar _) _ _ _ |- _ => inversion H; clear H; subst
  end.
  repeat match goal with
  | H : matches (Re.Opt _) _ _ _ |- _ => inversion H; clear H; subst
  | H : matches (Re.Lit _) _ _ _ |- _ => inversion H; clear H; subst
  end;
  eexists _, _, _, _, _; (split; [reflexivity|]); repeat split; auto.
Qed.

(** X13: A result that is not empty is the trimmed text of an element of the
    input: the input holds an opening tag, white space, an optional start
    of a CDATA section, the text, an optional end of a CDATA section, white
    space and the closing tag, in this order. *)
Theorem extract_xml_sound text tag :
  plain_tag tag = true → extract_xml text tag ≠ "" →
  ∃ pre ws1 cd body ce ws2 post,
    text = pre +:+ (open_tag tag +:+ ws1 +:+ cd +:+ body +:+ ce +:+ ws2
                    +:+ close_tag tag) +:+ post
    ∧ extract_xml text tag = Re.strip body
    ∧ all_chars Re.isspace ws1 = true ∧ all_chars Re.isspace ws2 = true
    ∧ (cd = "" ∨ cd = "<![CDATA[") ∧ (ce = "" ∨ ce = "]]>").
Proof.
  intros _. unfold extract_xml.
  destruct (Re.search (pattern tag) text) as [g|] eqn:Hs; [|done].
  apply search_sound in Hs as (pre & u & post & -> & Hm).
  apply matches_pattern in Hm as (ws1 & cd & body & ce & ws2 & -> & -> & H).
  intros _. by exists pre, ws1, cd, body, ce, ws2, post.
Qed.

End ExtractMore.

(** *** The text returned stops before the first closing tag *)

Section ExtractCut.

Local Arguments String.append !_ _ / : simpl nomatch.

Local Abbreviation finish := (λ (_ : string) (g : option string), Some g).

Implicit Types (s u rest body text tag p : string) (g : option string).

Lemma lstrip_suffix s : ∃ w, s = w +:+ Re.lstrip s.
Proof.
  induction s as [|x s [w IH]]; [by exists ""|]. simpl.
  destruct (Re.isspace x); [|by exists ""].
  exists (String x w). exact (f_equal (String x) IH).
Qed.

Lemma rstrip_prefix s : ∃ w, s = Re.rstrip s +:+ w.
Proof.
  induction s as [|x s [w IH]]; [by exists ""|]. simpl.
  destruct (Re.rstrip s) as [|y t] eqn:Hr.
  - destruct (Re.isspace x); [by exists (String x s)|by exists s].
  - exists w. exact (f_equal (String x) IH).
Qed.

Lemma contains_strip p s : contains p (Re.strip s) → contains p s.
Proof.
  unfold Re.strip. intros (a & b & Hab).
  destruct (lstrip_suffix s) as [w1 Hs].
  destruct (rstrip_prefix (Re.lstrip s)) as [w2 Hl].
  exists (w1 +:+ a), (b +:+ w2).
  rewrite Hs at 1. rewrite Hl at 1. rewrite Hab.
  by rewrite !append_assoc.
Qed.

Lemma not_contains_empty tag : ¬ contains (close_tag tag) "".
Proof. intros ([|? ?] & b & Hab); discriminate. Qed.

Lemma matches_closing_keeps tag u g g' :
  matches (closing tag) u g g' → g' = g.
Proof.
  unfold closing. intros Hm.
  repeat match goal with
  | H : matches (Re.Seq _ _) _ _ _ |- _ => inversion H; clear H; subst
  | H : matches (Re.Star _) _ _ _ |- _ => inversion H; clear H; subst
  end.
  repeat match goal with
  | H : matches (Re.Opt _) _ _ _ |- _ => inversion H; clear H; subst
  | H : matches (Re.Lit _) _ _ _ |- _ => inversion H; clear H; subst
  end; done.
Qed.

(** Group 1 ends where the end of the pattern first matches, so before
    any closing tag. *)
Lemma group_stops tag s g v :
  Re.exec (Re.Seq (Re.Group (Re.LazyStar Re.anychar)) (closing tag))
    s g finish = Some v →
  ∃ body, v = Some body ∧ ¬ contains (close_tag tag) body.
Proof.
  cbn [Re.exec].
  intros (u & rest & -> & _ & Hk & Hmin)%lazy_star_first.
  rewrite consumed_append in Hk.
  apply exec_sound in Hk as (u' & rest' & g' & _ & Hm & [= <-]).
  apply matches_closing_keeps in Hm as ->.
  exists u. split; [done|]. intros (a & b & ->).
  specialize (Hmin a (close_tag tag +:+ b) eq_refl).
  rewrite append_assoc in Hmin.
  rewrite (closing_matches tag (b +:+ rest) "" _ eq_refl) in Hmin.
  by discriminate Hmin.
Qed.

Lemma orelse_Some {R} (a b : option R) v :
  Re.orelse a b = Some v → a = Some v ∨ b = Some v.
Proof. destruct a; simpl; auto. Qed.

Lemma pattern_stops tag s v :
  Re.exec (pattern tag) s None finish = Some v →
  ∃ body, v = Some body ∧ ¬ contains (close_tag tag) body.
Proof.
  unfold pattern, content. cbn [Re.exec].
  destruct (Re.strip_prefix (open_tag tag) s) as [rest|]; [|done].
  apply (star_post
           (λ v, ∃ body, v = Some body ∧ ¬ contains (close_tag tag) body)).
  intros rest1 v1 [Hcd|Hplain]%orelse_Some.
  - destruct (Re.strip_prefix "<![CDATA[" rest1) as [rest2|]; [|done].
    by apply (group_stops tag rest2 None).
  - by apply (group_stops tag rest1 None).
Qed.

Lemma search_stops tag text g :
  Re.search (pattern tag) text = Some g →
  ∃ body, g = Some body ∧ ¬ contains (close_tag tag) body.
Proof.
  induction text as [|x text IH]; [done|].
  rewrite search_cons.
  destruct (Re.exec (pattern tag) (String x text) None finish)
    as [g'|] eqn:He; [|done].
  intros [= ->]. by apply pattern_stops in He.
Qed.

(** X14: The result never holds the closing tag: of an element that encloses
    another one with the same tag, only the text up to the first closing
    tag is returned. *)
Theorem extract_xml_no_closing_tag text tag :
  plain_tag tag = true →
  ¬ contains (close_tag tag) (extract_xml text tag).
Proof.
  intros _. unfold extract_xml.
  destruct (Re.search (pattern tag) text) as [g|] eqn:Hs;
    [|apply not_contains_empty].
  apply search_stops in Hs as (body & -> & Hbody).
  intros Hc. by apply Hbody, contains_strip.
Qed.

End ExtractCut.

(** ** The rendering of the history *)

Section HistoryBlocks.

Local Arguments String.append !_ _ / : simpl nomatch.

Context {Tool : Type}.
Variable capitalize : string → string.

Implicit Types (self : @Agent Tool) (hist : list Message).

Lemma py_join_app sep (l1 l2 : list string) :
  l1 ≠ [] → l2 ≠ [] →
  py_join sep (l1 ++ l2) = py_join sep l1 +:+ sep +:+ py_join sep l2.
Proof.
  intros H1 H2. induction l1 as [|p l1 IH]; [done|].
  destruct l1 as [|q l1].
  - destruct l2; [done|]. done.
  - change (py_join sep ((p :: q :: l1) ++ l2))
      with (p +:+ sep +:+ py_join sep ((q :: l1) ++ l2)).
    rewrite IH by done.
    change (py_join sep (p :: q :: l1))
      with (p +:+ sep +:+ py_join sep (q :: l1)).
    by rewrite !append_assoc.
Qed.

Lemma format_history_Some self hist :
  h (chat self) = Some hist →
  _format_history capitalize self
  = py_join blank_line (format_line capitalize <$> hist).
Proof.
  intros Hh. unfold _format_history. rewrite Hh.
  destruct hist; [done|]. by rewrite bool_decide_eq_true_2.
Qed.

(** X15: The rendering is one block per message, in order, with a blank line
    between blocks and none at the ends: without history, or with an empty
    one, it is the empty string; for one message it is its line; and the
    rendering of a history in two parts is the rendering of the first
    part, a blank line and the rendering of the second. *)
Theorem format_history_blocks self :
  (h (chat self) = None ∨ h (chat self) = Some [] →
   _format_history capitalize self = "")
  ∧ (∀ m, h (chat self) = Some [m] →
     _format_history capitalize self = format_line capitalize m)
  ∧ (∀ self1 self2 h1 h2,
       h (chat self) = Some (h1 ++ h2) →
       h (chat self1) = Some h1 → h (chat self2) = Some h2 →
       h1 ≠ [] → h2 ≠ [] →
       _format_history capitalize self
       = _format_history capitalize self1 +:+ blank_line
         +:+ _format_history capitalize self2).
Proof.
  split; [|split].
  - unfold _format_history. by intros [->| ->].
  - intros m Hh. by rewrite (format_history_Some self [m]).
  - intros self1 self2 h1 h2 Hh Hh1 Hh2 Hne1 Hne2.
    rewrite (format_history_Some _ _ Hh), (format_history_Some _ _ Hh1),
      (format_history_Some _ _ Hh2), fmap_app.
    apply py_join_app; by destruct h1, h2.
Qed.

End HistoryBlocks.

(** ** The set-up of a logger *)

Section LoggerSetup.

Import Logging.

Context {FS : Type}.
Variable mkdir_parents : FS → string → FS * Result unit.
Variable open_append : FS → string → FS * Result unit.
Variable path_join : string → string → string.
Variable Path_of_None : Exn.

Local Abbreviation init :=
  (AgentLogger_init mkdir_parents open_append path_join Path_of_None).
Local Abbreviation key := (λ name : string, "agent." +:+ name).

Implicit Types (reg : gmap string Logger) (fs : FS) (level : Z)
               (log_dir : option string).

Lemma getLogger_insert reg (k : string) (lg : Logger) :
  getLogger (<[k := lg]> reg) k = lg.
Proof. unfold getLogger. by rewrite lookup_insert_eq. Qed.

Lemma init_existing reg fs (name : string) level log_dir :
  handlers (getLogger reg (key name)) ≠ [] →
  init reg fs name level log_dir
  = (<[key name := setLevel (getLogger reg (key name)) level]> reg, fs,
     inr (mkAgentLogger name level log_dir (key name))).
Proof.
  intros Hh. unfold AgentLogger_init. cbn [logger].
  rewrite getLogger_insert. cbn [setLevel handlers].
  by destruct (handlers (getLogger reg (key name))).
Qed.

(** After a construction, whatever its outcome, the logger has a
    handler. *)
Lemma init_leaves_handler reg fs (name : string) level log_dir :
  handlers (getLogger (init reg fs name level log_dir).1.1 (key name)) ≠ [].
Proof.
  unfold AgentLogger_init. cbn [logger].
  rewrite getLogger_insert. cbn [setLevel handlers].
  destruct (handlers (getLogger reg (key name))) as [|hd hds] eqn:Hh.
  - unfold _setup_console_handler, _setup_file_handler.
    cbn [logger Logging.log_dir Logging.name].
    rewrite !getLogger_insert.
    destruct (truthy log_dir);
      [|cbn; rewrite getLogger_insert; cbn; by rewrite Hh].
    destruct log_dir as [dir|];
      [|cbn; rewrite getLogger_insert; cbn; by rewrite Hh].
    destruct (mkdir_parents fs dir) as [fs1 [e|?]];
      [cbn; rewrite getLogger_insert; cbn; by rewrite Hh|].
    destruct (open_append fs1 _) as [fs2 [e|?]];
      cbn; rewrite getLogger_insert; cbn; rewrite Hh; done.
  - cbn. rewrite getLogger_insert. cbn. by rewrite Hh.
Qed.

(** X16: A logger that already has handlers gets no other: the construction
    sets its level and nothing else, makes no directory and opens no
    file, and returns; a [log_dir] given then is not used. *)
Theorem AgentLogger_init_existing reg fs (name : string) level log_dir :
  handlers (getLogger reg ("agent." +:+ name)) ≠ [] →
  AgentLogger_init mkdir_parents open_append path_join Path_of_None
    reg fs name level log_dir
  = (<["agent." +:+ name :=
         setLevel (getLogger reg ("agent." +:+ name)) level]> reg,
     fs, inr (mkAgentLogger name level log_dir ("agent." +:+ name))).
Proof. apply init_existing. Qed.

(** X17: However a construction ended, returned or raised, every later one
    with the same name returns, leaves the file system as it is and
    leaves the handlers of the logger as they are: handlers are never
    added twice, and a file handler whose set-up failed, or that was not
    asked for the first time, is never added later. *)
Theorem AgentLogger_init_once
    reg fs (name : string) level log_dir fs' level' log_dir' :
  let reg1 :=
    (AgentLogger_init mkdir_parents open_append path_join Path_of_None
       reg fs name level log_dir).1.1 in
  ∃ reg2,
    AgentLogger_init mkdir_parents open_append path_join Path_of_None
      reg1 fs' name level' log_dir'
    = (reg2, fs', inr (mkAgentLogger name level' log_dir' ("agent." +:+ name)))
    ∧ handlers (getLogger reg2 ("agent." +:+ name))
      = handlers (getLogger reg1 ("agent." +:+ name))
    ∧ logger_level (getLogger reg2 ("agent." +:+ name)) = level'.
Proof.
  intros reg1. eexists. split.
  - apply init_existing, init_leaves_handler.
  - by rewrite getLogger_insert.
Qed.

(** X18: The first construction for a name, on a logger without handlers.
    Without [log_dir] (absent or empty) the logger gets the console
    handler.  With one, it gets the console handler and then the handler
    of the file [log_dir/name.log]; and if making the directory or opening
    the file raises, the exception is raised by the construction while the
    console handler stays on the logger. *)
Theorem AgentLogger_init_fresh reg fs (name : string) level log_dir :
  handlers (getLogger reg ("agent." +:+ name)) = [] →
  let console := StreamHandler _get_formatter in
  let out :=
    AgentLogger_init mkdir_parents open_append path_join Path_of_None
      reg fs name level log_dir in
  let lg := getLogger out.1.1 ("agent." +:+ name) in
  logger_level lg = level
  ∧ (truthy log_dir = false →
     out.2 = inr (mkAgentLogger name level log_dir ("agent." +:+ name))
     ∧ out.1.2 = fs ∧ handlers lg = [console])
  ∧ (∀ dir, log_dir = Some dir → truthy log_dir = true →
     match mkdir_parents fs dir with
     | (fs1, inl e) =>
         out.2 = inl e ∧ out.1.2 = fs1 ∧ handlers lg = [console]
     | (fs1, inr _) =>
         let path := path_join dir (name +:+ ".log") in
         match open_append fs1 path with
         | (fs2, inl e) =>
             out.2 = inl e ∧ out.1.2 = fs2 ∧ handlers lg = [console]
         | (fs2, inr _) =>
             out.2 = inr (mkAgentLogger name level log_dir
                            ("agent." +:+ name))
             ∧ out.1.2 = fs2
             ∧ handlers lg = [console; FileHandler path _get_formatter]
         end
     end).
Proof.
  intros Hh console out lg. subst out lg.
  unfold AgentLogger_init. cbn [logger].
  rewrite getLogger_insert. cbn [setLevel handlers]. rewrite Hh.
  unfold _setup_console_handler, _setup_file_handler.
  cbn [logger Logging.log_dir Logging.name].
  rewrite !getLogger_insert.
  split; [|split].
  - destruct (truthy log_dir);
      [|cbn; rewrite getLogger_insert; by cbn].
    destruct log_dir as [dir|];
      [|cbn; rewrite getLogger_insert; by cbn].
    destruct (mkdir_parents fs dir) as [fs1 [e|?]];
      [cbn; rewrite getLogger_insert; by cbn|].
    destruct (open_append fs1 _) as [fs2 [e|?]];
      cbn; rewrite getLogger_insert; by cbn.
  - intros ->. cbn. rewrite getLogger_insert. cbn. by rewrite Hh.
  - intros dir -> ->.
    destruct (mkdir_parents fs dir) as [fs1 [e|?]];
      [cbn; rewrite getLogger_insert; cbn; by rewrite Hh|].
    cbn zeta.
    destruct (open_append fs1 _) as [fs2 [e|?]];
      cbn; rewrite getLogger_insert; cbn; by rewrite Hh.
Qed.

End LoggerSetup.

(** ** More concrete runs *)

Module MoreRuns.
Import Demo.

(** A history with its system message first, trimmed to one message. *)
Lemma prune_history_keeps_order_run :
  let hist := [sys "s"; usr "a"; bot "b"; usr "c"] in
  let self := writer (Some 1) hist in
  h (chat self) = Some hist ∧ system_first hist
  ∧ ∃ kept, h (chat (_prune_history self)) = Some kept
            ∧ kept `sublist_of` hist.
Proof.
  intros hist self.
  assert (Hfirst : system_first hist) by reflexivity.
  split; [done|]. split; [exact Hfirst|].
  exact (prune_history_keeps_order self hist eq_refl Hfirst).
Defined.

Lemma prune_history_keeps_newest_run :
  let hist := [usr "a"; sys "s"; bot "b"; usr "c"] in
  let self := writer (Some 1) hist in
  h (chat self) = Some hist ∧ last hist = Some (usr "c")
  ∧ ∃ kept, h (chat (_prune_history self)) = Some kept
            ∧ last kept = Some (usr "c").
Proof.
  intros hist self. split; [done|]. split; [done|].
  apply (prune_history_keeps_newest self hist (usr "c") eq_refl eq_refl).
  discriminate.
Defined.

(** An agent without [memory_size]: the turn keeps all that was stored. *)
Lemma run_with_tools_untrimmed_run :
  let self := writer None [usr "a"; bot "b"; usr "c"] in
  memory_size self = None
  ∧ h (chat (run_with_tools tt self "hi" 5 tt).1.2)
    = Some ([usr "a"; bot "b"; usr "c"] ++ [usr "hi"; bot "[hi]"]).
Proof.
  intros self. split; [done|].
  destruct (run_with_tools_untrimmed toolloop contents self tt "hi" 5 tt
              (or_introl eq_refl)) as [_ Hkeeps].
  exact (Hkeeps [usr "a"; bot "b"; usr "c"] [usr "hi"; bot "[hi]"]
           eq_refl eq_refl).
Defined.

(** The client of the runs appends two messages in a turn. *)
Lemma run_with_tools_bounded_growth_run :
  let hist := [usr "a"; sys "s"; bot "b"; usr "c"] in
  let self := writer (Some 1) hist in
  memory_size self = Some 1 ∧ 0 < 1 ∧ h (chat self) = Some hist
  ∧ ∃ after,
      h (chat (run_with_tools tt self "hi" 5 tt).1.2) = Some after
      ∧ Z.of_nat (non_system_count after) ≤ 1 + 1 + Z.of_nat 2.
Proof.
  intros hist self. split; [done|]. split; [lia|]. split; [done|].
  destruct (run_with_tools_bounded_growth toolloop contents self 1 hist
              [usr "hi"; bot "[hi]"] 2 tt "hi" 5 tt
              eq_refl ltac:(lia) eq_refl eq_refl ltac:(vm_compute; lia))
    as (after & Hafter & Hcount & _).
  exists after. split; [exact Hafter|exact Hcount].
Defined.


(** A second call on a chain appends to the steps of the first. *)
Lemma Chain_call_returns_trace_run :
  let self :=
    set_steps (set_agents (Chain_new "twice") [0%nat; 0%nat])
      [mkStep 0 "old" "[old]"] in
  let out := Chain_call tt heap self "hi" in
  out.2 = inr "[[hi]]"
  ∧ ∃ new, steps out.1.2 = [mkStep 0 "old" "[old]"] ++ new
           ∧ step_agent <$> new = [0%nat; 0%nat].
Proof.
  intros self out. split; [done|].
  destruct (Chain_call_returns_trace toolloop contents tt tt heap self "hi"
              out.1.1.1 out.1.1.2 out.1.2 "[[hi]]" eq_refl)
    as (new & Hsteps & Hag & _).
  by exists new.
Defined.

(** The translator is not in the chain and is not touched. *)
Lemma Chain_call_frame_run :
  let self := set_agents (Chain_new "writer_only") [0%nat] in
  (1%nat ∉ agents self)
  ∧ (Chain_call tt heap self "hi").1.1.2 1%nat = translator.
Proof.
  intros self.
  assert (Hnot : 1%nat ∉ agents self)
    by (apply (bool_decide_unpack _); by vm_compute).
  split; [exact Hnot|].
  destruct (Chain_call_frame toolloop contents tt tt heap self "hi" 1%nat)
    as [_ Hframe].
  exact (Hframe Hnot).
Defined.

(** White space around the text of an element. *)
Lemma extract_xml_stripped_run :
  plain_tag "a" = true ∧ extract_xml "<a> x y  </a>" "a" = "x y"
  ∧ Re.strip (extract_xml "<a> x y  </a>" "a")
    = extract_xml "<a> x y  </a>" "a".
Proof.
  split; [done|]. split; [done|].
  exact (extract_xml_stripped "<a> x y  </a>" "a" eq_refl).
Defined.

(** An element that encloses another one with the same tag. *)
Lemma extract_xml_sound_run :
  plain_tag "a" = true ∧ extract_xml "<a> <a>x</a> </a>" "a" = "<a>x"
  ∧ ∃ pre ws1 cd body ce ws2 post,
      "<a> <a>x</a> </a>"
      = pre +:+ (open_tag "a" +:+ ws1 +:+ cd +:+ body +:+ ce +:+ ws2
                 +:+ close_tag "a") +:+ post
      ∧ extract_xml "<a> <a>x</a> </a>" "a" = Re.strip body.
Proof.
  split; [done|]. split; [done|].
  destruct (extract_xml_sound "<a> <a>x</a> </a>" "a" eq_refl
              ltac:(discriminate))
    as (pre & ws1 & cd & body & ce & ws2 & post & Ht & Hr & _).
  by exists pre, ws1, cd, body, ce, ws2, post.
Defined.

Lemma extract_xml_no_closing_tag_run :
  plain_tag "a" = true
  ∧ ¬ contains (close_tag "a") (extract_xml "<a> <a>x</a> </a>" "a").
Proof.
  split; [done|].
  exact (extract_xml_no_closing_tag "<a> <a>x</a> </a>" "a" eq_refl).
Defined.

(** Two messages, rendered. *)
Lemma format_history_blocks_run :
  _format_history Samples.capitalize (writer None [usr "hi"; bot "yo"])
  = "**User:** hi" +:+ blank_line +:+ "**Assistant:** yo".
Proof.
  destruct (format_history_blocks Samples.capitalize
              (writer None [usr "hi"; bot "yo"])) as (_ & _ & Happ).
  rewrite (Happ (writer None [usr "hi"]) (writer None [bot "yo"])
             [usr "hi"] [bot "yo"] eq_refl eq_refl eq_refl
             ltac:(discriminate) ltac:(discriminate)).
  reflexivity.
Defined.

(** A logger that has its console handler is asked for a log file. *)
Lemma AgentLogger_init_existing_run :
  let console := Logging.StreamHandler Logging._get_formatter in
  let reg : gmap string Logging.Logger :=
    {["agent.math" := Logging.mkLogger 20 [console]]} in
  Logging.handlers (Logging.getLogger reg ("agent." +:+ "math")) ≠ []
  ∧ ∃ reg', Samples.AgentLogger_init reg [] "math" 10 (Some "logs")
            = (reg', [],
               inr (Logging.mkAgentLogger "math" 10 (Some "logs")
                      "agent.math"))
            ∧ Logging.handlers (Logging.getLogger reg' "agent.math")
              = [console].
Proof.
  intros console reg.
  assert (Hh : Logging.handlers (Logging.getLogger reg ("agent." +:+ "math"))
               ≠ []).
  { unfold Logging.getLogger, reg.
    change ("agent." +:+ "math") with "agent.math".
    rewrite lookup_singleton_eq. discriminate. }
  split; [exact Hh|]. eexists. split.
  - exact (AgentLogger_init_existing Samples.mkdir_parents
             Samples.open_append Samples.path_join Samples.Path_of_None
             reg [] "math" 10 (Some "logs") Hh).
  - rewrite getLogger_insert. unfold Logging.getLogger, reg.
    change ("agent." +:+ "math") with "agent.math".
    by rewrite lookup_singleton_eq.
Defined.

(** The directory of the log cannot be made. *)
Lemma AgentLogger_init_fresh_run :
  let console := Logging.StreamHandler Logging._get_formatter in
  let out := Samples.AgentLogger_init ∅ [] "math" 20 (Some "/proc/logs") in
  Logging.handlers (Logging.getLogger ∅ ("agent." +:+ "math")) = []
  ∧ out.2 = inl (mkExn "PermissionError" "/proc/logs")
  ∧ Logging.handlers (Logging.getLogger out.1.1 ("agent." +:+ "math"))
    = [console].
Proof.
  intros console out.
  assert (Hh : Logging.handlers
                 (Logging.getLogger (∅ : gmap string Logging.Logger)
                    ("agent." +:+ "math")) = []) by done.
  split; [exact Hh|].
  destruct (AgentLogger_init_fresh Samples.mkdir_parents
              Samples.open_append Samples.path_join Samples.Path_of_None
              ∅ [] "math" 20 (Some "/proc/logs") Hh) as (_ & _ & Hdir).
  destruct (Hdir "/proc/logs" eq_refl eq_refl) as (Hr & _ & Hhandlers).
  split; [exact Hr|exact Hhandlers].
Defined.

End MoreRuns.
